(** * Verification of [experiment_scripts/eval_poses.py] (rm4d)

    Shallow embedding of the evaluation-pose pipeline: [get_evaluation_poses]
    (the pose sampler), [evaluate_ik] (the reachability evaluator) and the
    part of [main] that chains them.

    Numbers are modelled as Rocq reals (exact arithmetic in place of IEEE
    doubles).  numpy's [Generator] is modelled by its bit generator: an
    abstract state with [next_uint64], from which [next_double] and
    [uniform] are written out as numpy does, and an abstract
    [random_standard_normal] (numpy's ziggurat, whose tables are omitted).
    The simulator and the robot's IK solver are external collaborators and
    are parameters of the development. *)

From Stdlib Require Import Reals Lra ZArith Ascii.
From stdpp Require Import base list gmap strings pretty.

Open Scope R_scope.

(** A 4x4 homogeneous transform, as a numpy array: a list of rows. *)
Definition Mat4 := list (list R).

(** [np.eye(4)] *)
Definition eye4 : Mat4 :=
  [[1; 0; 0; 0]; [0; 1; 0; 0]; [0; 0; 1; 0]; [0; 0; 0; 1]].

(** Reading [m[r, c]]; the indices used below are always in range. *)
Definition entry (m : list (list R)) (r c : nat) : R :=
  default 0 (m !! r ≫= (.!! c)).

(** [m[r, c] = v]: the indices used below are constants below 4, always in
    range of a 4x4 array. *)
Definition set_entry (m : list (list R)) (r c : nat) (v : R) : list (list R) :=
  match m !! r with
  | Some row => <[r := <[c := v]> row]> m
  | None => m
  end.

(** [m[:3, :3] = rot] *)
Definition set_block3 (m : Mat4) (rot : list (list R)) : Mat4 :=
  zip_with (fun row rrow => take 3 rrow ++ drop 3 row) (take 3 m) rot
  ++ drop 3 m.

(** scipy quaternions are scalar-last: (x, y, z, w). *)
Record Quat := mkQuat { qx : R; qy : R; qz : R; qw : R }.

(** [np.linalg.norm] of a quaternion row. *)
Definition quat_norm (q : Quat) : R :=
  sqrt (qx q * qx q + qy q * qy q + qz q * qz q + qw q * qw q).

(** [Rotation.from_quat] (the constructor [Rotation(quat)] with
    [normalize=True]): raises [ValueError] on a zero-norm row, otherwise
    divides each row by its norm. *)
Definition from_quat (qs : list Quat) : option (list Quat) :=
  if existsb (fun q => if Req_dec_T (quat_norm q) 0 then true else false) qs
  then None
  else Some ((fun q => let n := quat_norm q in
                       mkQuat (qx q / n) (qy q / n) (qz q / n) (qw q / n)) <$> qs).

(** [Rotation.as_matrix], scipy's formula for scalar-last quaternions. *)
Definition as_matrix (q : Quat) : list (list R) :=
  let x := qx q in let y := qy q in let z := qz q in let w := qw q in
  let x2 := x * x in let y2 := y * y in let z2 := z * z in let w2 := w * w in
  let xy := x * y in let zw := z * w in let xz := x * z in
  let yw := y * w in let yz := y * z in let xw := x * w in
  [[x2 - y2 - z2 + w2; 2 * (xy - zw); 2 * (xz + yw)];
   [2 * (xy + zw); - x2 + y2 - z2 + w2; 2 * (yz - xw)];
   [2 * (xz - yw); 2 * (yz + xw); - x2 - y2 + z2 + w2]].

(** [arr.reshape(n, 4)] of a flat C-ordered array into quaternion rows. *)
Fixpoint reshape4 (n : nat) (flat : list R) : list Quat :=
  match n, flat with
  | S n', x :: y :: z :: w :: rest => mkQuat x y z w :: reshape4 n' rest
  | _, _ => []
  end.

Section Pipeline.

(** numpy's bit generator (PCG64) state, its seeding by [default_rng], its
    64-bit output, and the ziggurat standard normal built on it. *)
Variable G : Type.
Variable default_rng : Z -> G.
Variable next_uint64 : G -> Z * G.
Variable random_standard_normal : G -> R * G.

(** numpy's [next_double]: [(next_uint64(st) >> 11) * (1.0 / 9007199254740992.0)];
    the output is read as an unsigned 64-bit word. *)
Definition next_double (g : G) : R * G :=
  let '(r, g') := next_uint64 g in
  (IZR (Z.shiftr (r mod 2 ^ 64) 11) * (1 / 9007199254740992), g').

(** [random_uniform(bitgen, low, range) = low + range * next_double(bitgen)] *)
Definition random_uniform (low range : R) (g : G) : R * G :=
  let '(d, g') := next_double g in (low + range * d, g').

(** [random_normal(bitgen, loc, scale) = loc + scale * random_standard_normal(bitgen)] *)
Definition random_normal (loc scale : R) (g : G) : R * G :=
  let '(d, g') := random_standard_normal g in (loc + scale * d, g').

(** [size] successive draws, in order, threading the generator state. *)
Fixpoint draws {A} (f : G -> A * G) (n : nat) (g : G) : list A * G :=
  match n with
  | O => ([], g)
  | S n' =>
      let '(x, g1) := f g in
      let '(xs, g2) := draws f n' g1 in
      (x :: xs, g2)
  end.

(** [rng.uniform(low, high, size)]: numpy checks the range [high - low]
    before drawing anything; a negative range raises
    [ValueError('high - low < 0')] ([None]), whatever [size], even 0.  (Its
    [OverflowError] for a non-finite range has no counterpart over the
    reals.) *)
Definition uniform (low high : R) (size : nat) (g : G) : option (list R * G) :=
  if Rlt_dec (high - low) 0 then None
  else Some (draws (random_uniform low (high - low)) size g).

(** [Rotation.random(num, random_state=rng)]:
    [sample = random_state.normal(size=(num, 4)); return cls(sample)]. *)
Definition rotation_random (num : nat) (g : G) : option (list Quat * G) :=
  let '(flat, g') := draws (random_normal 0 1) (4 * num) g in
  match from_quat (reshape4 num flat) with
  | Some qs => Some (qs, g')
  | None => None
  end.

(** [get_evaluation_poses(max_radius, max_z, n_samples, seed)]; [None] is a
    [ValueError]: a zero-norm quaternion sample, or a negative [max_z] in the
    last [rng.uniform]. *)
Definition get_evaluation_poses (max_radius max_z : R) (n_samples : nat)
    (seed : Z) : option (list Mat4) :=
  let rng := default_rng seed in
  let tfs_ee := replicate n_samples eye4 in
  match rotation_random n_samples rng with
  | None => None
  | Some (rots, rng) =>
      let tfs_ee := zip_with set_block3 tfs_ee (as_matrix <$> rots) in
      match uniform 0 1 n_samples rng with
      | None => None
      | Some (us, rng) =>
      let radii := (fun u => max_radius * sqrt u) <$> us in
      match uniform 0 1 n_samples rng with
      | None => None
      | Some (vs, rng) =>
      let angles := (fun v => 2 * PI * v) <$> vs in
      let x_pos := zip_with (fun r a => r * cos a) radii angles in
      let y_pos := zip_with (fun r a => r * sin a) radii angles in
      let tfs_ee := zip_with (fun tf x => set_entry tf 0 3 x) tfs_ee x_pos in
      let tfs_ee := zip_with (fun tf y => set_entry tf 1 3 y) tfs_ee y_pos in
      match uniform 0 max_z n_samples rng with
      | None => None
      | Some (zs, _) =>
      let tfs_ee := zip_with (fun tf z => set_entry tf 2 3 z) tfs_ee zs in
      Some tfs_ee
      end
      end
      end
  end.

(** One pose of the vectorised chain above, for the draws at one index. *)
Definition pose_of (max_radius : R) (q : Quat) (u v z : R) : Mat4 :=
  let r := max_radius * sqrt u in
  let a := 2 * PI * v in
  set_entry (set_entry (set_entry (set_block3 eye4 (as_matrix q))
    0 3 (r * cos a)) 1 3 (r * sin a)) 2 3 z.

(** Two generator states are indistinguishable when every sequence of
    draws from them gives the same numbers. *)
CoInductive gen_bisim : G -> G -> Prop :=
  | gen_bisim_step g1 g2 :
      (next_uint64 g1).1 = (next_uint64 g2).1 ->
      gen_bisim (next_uint64 g1).2 (next_uint64 g2).2 ->
      (random_standard_normal g1).1 = (random_standard_normal g2).1 ->
      gen_bisim (random_standard_normal g1).2 (random_standard_normal g2).2 ->
      gen_bisim g1 g2.

(** ** The simulator, the robot's IK solver and the program state *)

(** The solver's position and orientation types, its solutions, its hard
    errors, and the simulator/robot state it may change on every call. *)
Variable Pos Quatn Sol SolverErr SimState : Type.

(** [sim.tf_to_pos_quat]: the pose handed to the solver.  Modelled from the
    spec: rm4d's [Simulator] is not part of this file's source; it is taken
    as the spec's pose-to-position/orientation conversion, a function of the
    pose's value that writes nothing back into the pose array. *)
Variable tf_to_pos_quat : Mat4 -> Pos * Quatn.

(** What one call to [robot.inverse_kinematics] does: return a solution or
    [None], or raise a hard error. *)
Inductive ik_outcome :=
  | IKReturn (o : option Sol)
  | IKRaise (e : SolverErr).

(** [robot.inverse_kinematics(pos, quat, threshold=, trials=, seed=)] *)
Variable inverse_kinematics :
  SimState -> Pos -> Quatn -> Z -> Z -> Z -> ik_outcome * SimState.

(** numpy arrays held in the Python heap. *)
Inductive Val :=
  | VPoses (tfs : list Mat4)
  | VBools (bs : list bool).

Inductive Exc :=
  | ExcSolver (e : SolverErr)
  | ExcValueError
  | ExcIndexError
  | ExcTypeError
  | ExcOSError (errno : Z) (filename : string)
  | ExcSetup.

(** The externally visible actions of a run: directory creation, saved
    arrays, solver calls with their outcome, and the simulator teardown. *)
Inductive Event :=
  | EvMkdir (dir : string)
  | EvSave (fn : string) (v : Val)
  | EvIK (pos : Pos) (quat : Quatn) (threshold trials seed : Z) (out : ik_outcome)
  | EvDisconnect.

(** The file system: [storage_error past ev] is the [errno] of the
    [OSError] that the storage action [ev] (a directory creation or a file
    write) raises after the actions [past], and [None] when it succeeds. *)
Variable storage_error : list Event -> Event -> option Z.

(** [get_sim_and_robot(robot_type, degrees)]: the state of the simulator
    with the robot loaded, or [None] when building them raises ([Simulator]
    and the robot classes are from [rm4d.robots]). *)
Variable get_sim_and_robot : string -> Z -> SimState -> option SimState.

Record World := mkWorld {
  heap : gmap positive Val;
  sim : SimState;
  log : list Event
}.

Inductive Res (A : Type) :=
  | Ok (a : A)
  | Raise (e : Exc).
Arguments Ok {A} a.
Arguments Raise {A} e.

(** Python statements: state passing with exceptions; the state reached
    before an exception is kept. *)
Definition M (A : Type) := World -> Res A * World.

Definition ret {A} (a : A) : M A := fun w => (Ok a, w).

Definition bind {A B} (m : M A) (k : A -> M B) : M B :=
  fun w => match m w with
           | (Ok a, w') => k a w'
           | (Raise e, w') => (Raise e, w')
           end.

Definition raise {A} (e : Exc) : M A := fun w => (Raise e, w).

Notation "'let*' x := m 'in' k" := (bind m (fun x => k))
  (at level 200, x name, m at level 100, k at level 200).
Notation "m ;; k" := (bind m (fun _ => k)) (at level 100, right associativity).

Definition set_heap (h : gmap positive Val) (w : World) : World :=
  mkWorld h (sim w) (log w).

Definition emit (ev : Event) : M unit :=
  fun w => (Ok tt, mkWorld (heap w) (sim w) (log w ++ [ev])).

(** A new array object. *)
Definition alloc (v : Val) : M positive :=
  fun w => let l := fresh (dom (heap w)) in
           (Ok l, set_heap (<[l := v]> (heap w)) w).

Definition load (l : positive) : M Val :=
  fun w => match heap w !! l with
           | Some v => (Ok v, w)
           | None => (Raise ExcValueError, w)
           end.

(** Reading an array of poses. *)
Definition load_poses (l : positive) : M (list Mat4) :=
  let* v := load l in
  match v with
  | VPoses tfs => ret tfs
  | VBools _ => raise ExcTypeError
  end.

(** [tfs_ee[i]] *)
Definition index (tfs : list Mat4) (i : nat) : M Mat4 :=
  match tfs !! i with
  | Some tf => ret tf
  | None => raise ExcIndexError
  end.

(** [reachable_by_ik[i] = b] *)
Definition store_bool (l : positive) (i : nat) (b : bool) : M unit :=
  let* v := load l in
  match v with
  | VBools bs =>
      if decide (i < length bs)%nat
      then fun w => (Ok tt, set_heap (<[l := VBools (<[i := b]> bs)]> (heap w)) w)
      else raise ExcIndexError
  | VPoses _ => raise ExcTypeError
  end.

(** One call of the solver on the current simulator state. *)
Definition call_ik (pos : Pos) (quat : Quatn) (threshold trials seed : Z)
    : M (option Sol) :=
  fun w =>
    let '(o, s') := inverse_kinematics (sim w) pos quat threshold trials seed in
    let w' := mkWorld (heap w) s' (log w ++ [EvIK pos quat threshold trials seed o]) in
    match o with
    | IKReturn r => (Ok r, w')
    | IKRaise e => (Raise (ExcSolver e), w')
    end.

(** [for x in xs: body(x)] *)
Fixpoint for_ {A} (xs : list A) (body : A -> M unit) : M unit :=
  match xs with
  | [] => ret tt
  | x :: xs' => body x ;; for_ xs' body
  end.

(** [ik_sln is not None] *)
Definition is_not_none (o : option Sol) : bool :=
  match o with Some _ => true | None => false end.

(** The body of the loop of [evaluate_ik] at index [i]. *)
Definition ik_step (tfs_ee reachable_by_ik : positive)
    (threshold iterations seed : Z) (i : nat) : M unit :=
  let* tfs := load_poses tfs_ee in
  let* tf := index tfs i in
  let '(pos, quat) := tf_to_pos_quat tf in
  let* ik_sln := call_ik pos quat threshold iterations seed in
  store_bool reachable_by_ik i (is_not_none ik_sln).

(** [evaluate_ik(tfs_ee, sim, robot, threshold, iterations, seed)]; the
    [tqdm] progress bar is output only and is left out. *)
Definition evaluate_ik (tfs_ee : positive) (threshold iterations seed : Z)
    : M positive :=
  let* tfs := load_poses tfs_ee in
  let* reachable_by_ik := alloc (VBools (replicate (length tfs) false)) in
  for_ (seq 0 (length tfs))
    (ik_step tfs_ee reachable_by_ik threshold iterations seed) ;;
  ret reachable_by_ik.

(** The parsed command line. *)
Record Args := mkArgs {
  robot_type : string;
  degrees : Z;
  num_samples : nat;
  threshold : Z;
  iterations : Z;
  seed : Z
}.

(** A storage action on [path]: the attempt is logged, failed or not
    ([mkdir(parents=True)] may have created parent directories, [np.save]
    may have created or truncated the file), and a failure raises [OSError]
    with the path as its [filename]. *)
Definition storage (ev : Event) (path : string) : M unit :=
  fun w =>
    let w' := mkWorld (heap w) (sim w) (log w ++ [ev]) in
    match storage_error (log w) ev with
    | Some errno => (Raise (ExcOSError errno path), w')
    | None => (Ok tt, w')
    end.

(** [pathlib.Path(path).mkdir(parents=True, exist_ok=True)] *)
Definition mkdir (path : string) : M unit := storage (EvMkdir path) path.

(** [np.save(fn, arr)] *)
Definition save (fn : string) (l : positive) : M unit :=
  let* v := load l in storage (EvSave fn v) fn.

(** [sim, robot = get_sim_and_robot(robot_type, degrees)]: the simulator
    state of the world becomes the new simulator's. *)
Definition setup_sim (robot_type : string) (degrees : Z) : M unit :=
  fun w =>
    match get_sim_and_robot robot_type degrees (sim w) with
    | Some s' => (Ok tt, mkWorld (heap w) s' (log w))
    | None => (Raise ExcSetup, w)
    end.

(** [main(args)]; [range_radius] and [range_z] are the attributes of the
    robot that [get_sim_and_robot] builds (fixed by its class and URDF),
    [sim.disconnect()] of the connected simulator is taken not to raise, and
    the final prints are left out. *)
Definition main (args : Args) (range_radius range_z : R) : M unit :=
  let robot_name :=
    if bool_decide (robot_type args = "franka")
    then robot_type args +:+ pretty (degrees args) else robot_type args in
  let data_dir := "data/eval_poses_" +:+ robot_name +:+ "_n"
    +:+ pretty (num_samples args) +:+ "_t" +:+ pretty (threshold args)
    +:+ "_i" +:+ pretty (iterations args) in
  mkdir data_dir ;;
  setup_sim (robot_type args) (degrees args) ;;
  let z_max := range_z in
  let radius := range_radius in
  let* poses_arr :=
    match get_evaluation_poses radius z_max (num_samples args) (seed args) with
    | Some ps => ret ps
    | None => raise ExcValueError
    end in
  let* poses := alloc (VPoses poses_arr) in
  let poses_fn := data_dir +:+ "/poses.npy" in
  save poses_fn poses ;;
  let* reachable_by_ik :=
    evaluate_ik poses (threshold args) (iterations args) (seed args) in
  emit EvDisconnect ;;
  let reachable_fn := data_dir +:+ "/reachable_by_ik.npy" in
  save reachable_fn reachable_by_ik.

(** ** Properties of poses used in the statements *)

(** The rows of the upper-left 3x3 block are orthonormal. *)
Definition rot_rows_orthonormal (m : Mat4) : Prop :=
  forall i j, (i < 3)%nat -> (j < 3)%nat ->
    entry m i 0 * entry m j 0 + entry m i 1 * entry m j 1
      + entry m i 2 * entry m j 2 = if Nat.eqb i j then 1 else 0.

(** The determinant of the upper-left 3x3 block. *)
Definition det3 (m : Mat4) : R :=
  entry m 0 0 * (entry m 1 1 * entry m 2 2 - entry m 1 2 * entry m 2 1)
  - entry m 0 1 * (entry m 1 0 * entry m 2 2 - entry m 1 2 * entry m 2 0)
  + entry m 0 2 * (entry m 1 0 * entry m 2 1 - entry m 1 1 * entry m 2 0).

Definition unit_quat (q : Quat) : Prop :=
  qx q * qx q + qy q * qy q + qz q * qz q + qw q * qw q = 1.

(** The log entry of the solver call made for pose [tf]. *)
Definition ik_event (threshold iterations seed : Z) (tf : Mat4)
    (o : ik_outcome) : Event :=
  EvIK (tf_to_pos_quat tf).1 (tf_to_pos_quat tf).2 threshold iterations seed o.

Definition returned (o : ik_outcome) : bool :=
  match o with IKReturn _ => true | IKRaise _ => false end.

Definition is_ik_event (ev : Event) : bool :=
  match ev with EvIK _ _ _ _ _ _ => true | _ => false end.

(** ** The run's output directory and its report *)

(** The directory [main] writes into (lines 99-102): [robot_name] is the
    robot type, with [str(degrees)] appended for the franka, and
    [os.path.join('data', f'eval_poses_{robot_name}_n{num_samples}_t{threshold}_i{iterations}')]. *)
Definition eval_data_dir (args : Args) : string :=
  let robot_name :=
    if bool_decide (robot_type args = "franka")
    then robot_type args +:+ pretty (degrees args) else robot_type args in
  "data/eval_poses_" +:+ robot_name +:+ "_n"
    +:+ pretty (num_samples args) +:+ "_t" +:+ pretty (threshold args)
    +:+ "_i" +:+ pretty (iterations args).

(** [arr.sum()] of a boolean array: the number of its true entries. *)
Fixpoint count_true (v : list bool) : nat :=
  match v with
  | [] => O
  | b :: v' => ((if b then 1 else 0) + count_true v')%nat
  end.

(** [x / num_samples] in floating point: [None] stands for the non-finite
    quotient ([nan] or [inf]) numpy gives for a zero divisor. *)
Definition true_divide (x : R) (n : nat) : option R :=
  if decide (n = O) then None else Some (x / INR n).

(** The two percentages printed by [main] (lines 121-122):
    [100.0*reachable_by_ik.sum()/num_samples] and
    [100.0*(num_samples-reachable_by_ik.sum())/num_samples]. *)
Definition reported_percentages (num_samples : nat) (reachable_by_ik : list bool)
    : option R * option R :=
  let s := INR (count_true reachable_by_ik) in
  (true_divide (100 * s) num_samples,
   true_divide (100 * (INR num_samples - s)) num_samples).

(** A string without the separator character ['_']. *)
Fixpoint no_underscore (s : string) : bool :=
  match s with
  | EmptyString => true
  | String c s' => if Ascii.ascii_dec c "_"%char then false else no_underscore s'
  end.

(** ** Lemmas on the sampler *)

Lemma draws_length {A} (f : G -> A * G) n g : length (draws f n g).1 = n.
Proof.
  revert g; induction n as [|n IH]; intros g; simpl; [done|].
  destruct (f g) as [x g1]; specialize (IH g1).
  destruct (draws f n g1) as [xs g2]; simpl in *; lia.
Qed.

Lemma next_double_range g : 0 <= (next_double g).1 < 1.
Proof.
  unfold next_double; destruct (next_uint64 g) as [r g']; simpl.
  set (k := Z.shiftr (r mod 2 ^ 64) 11).
  assert (Hk : (0 <= k < 9007199254740992)%Z).
  { unfold k; rewrite Z.shiftr_div_pow2 by lia.
    pose proof (Z.mod_pos_bound r (2 ^ 64)) as Hm.
    split; [apply Z.div_pos; lia|].
    apply Z.div_lt_upper_bound; lia. }
  destruct Hk as [Hk0 Hk1].
  apply IZR_le in Hk0; apply IZR_lt in Hk1. lra.
Qed.

Lemma draws_forall {A} (f : G -> A * G) (P : A -> Prop) n g :
  (forall g, P (f g).1) -> Forall P (draws f n g).1.
Proof.
  intros Hf; revert g; induction n as [|n IH]; intros g; simpl; [constructor|].
  pose proof (Hf g) as Hx.
  destruct (f g) as [x g1]; specialize (IH g1).
  destruct (draws f n g1) as [xs g2]; simpl in *; constructor; auto.
Qed.

Lemma uniform_ok low high n g : 0 <= high - low ->
  uniform low high n g = Some (draws (random_uniform low (high - low)) n g).
Proof. intros H. unfold uniform. destruct (Rlt_dec _ 0); [lra|done]. Qed.

Lemma uniform_neg low high n g : high - low < 0 -> uniform low high n g = None.
Proof. intros H. unfold uniform. destruct (Rlt_dec _ 0); [done|lra]. Qed.

Lemma uniform_range low high n g xs g' :
  uniform low high n g = Some (xs, g') ->
  Forall (fun x => exists d, 0 <= d < 1 /\ x = low + (high - low) * d) xs.
Proof.
  unfold uniform. destruct (Rlt_dec _ 0); [discriminate|].
  intros H. injection H as Hx. change xs with (xs, g').1. rewrite <- Hx.
  apply draws_forall; intros g0; unfold random_uniform.
  pose proof (next_double_range g0) as Hd.
  destruct (next_double g0) as [d g'']; simpl in *; eauto.
Qed.

Lemma uniform_length low high n g xs g' :
  uniform low high n g = Some (xs, g') -> length xs = n.
Proof.
  unfold uniform. destruct (Rlt_dec _ 0); [discriminate|].
  intros H. injection H as Hx. change xs with (xs, g').1. rewrite <- Hx.
  apply draws_length.
Qed.

Lemma reshape4_length n flat :
  length flat = (4 * n)%nat -> length (reshape4 n flat) = n.
Proof.
  revert flat; induction n as [|n IH]; intros flat Hl; [done|].
  destruct flat as [|x [|y [|z [|w rest]]]]; simpl in *; try lia.
  rewrite IH; lia.
Qed.

Lemma from_quat_length qs qs' : from_quat qs = Some qs' -> length qs' = length qs.
Proof.
  unfold from_quat; destruct existsb; intros H; inversion H; subst.
  apply length_fmap.
Qed.

Lemma rotation_random_length num g qs g' :
  rotation_random num g = Some (qs, g') -> length qs = num.
Proof.
  unfold rotation_random.
  pose proof (draws_length (random_normal 0 1) (4 * num) g) as Hl.
  destruct (draws _ _ _) as [flat g1]; simpl in Hl.
  destruct (from_quat _) as [qs1|] eqn:Hq; intros H; inversion H; subst.
  apply from_quat_length in Hq. rewrite Hq. by apply reshape4_length.
Qed.

Lemma pose_of_eq max_radius q u v z :
  let m := as_matrix q in
  let r := max_radius * sqrt u in
  pose_of max_radius q u v z =
  [[entry m 0 0; entry m 0 1; entry m 0 2; r * cos (2 * PI * v)];
   [entry m 1 0; entry m 1 1; entry m 1 2; r * sin (2 * PI * v)];
   [entry m 2 0; entry m 2 1; entry m 2 2; z];
   [0; 0; 0; 1]].
Proof. reflexivity. Qed.

Lemma sampler_spec max_radius max_z n seed ps :
  get_evaluation_poses max_radius max_z n seed = Some ps ->
  exists qs g1 us g2 vs g3 zs g4,
    rotation_random n (default_rng seed) = Some (qs, g1) /\
    uniform 0 1 n g1 = Some (us, g2) /\
    uniform 0 1 n g2 = Some (vs, g3) /\
    uniform 0 max_z n g3 = Some (zs, g4) /\
    length ps = n /\
    forall i, (i < n)%nat -> exists q u v z,
      qs !! i = Some q /\ us !! i = Some u /\ vs !! i = Some v /\
      zs !! i = Some z /\ ps !! i = Some (pose_of max_radius q u v z).
Proof.
  unfold get_evaluation_poses.
  destruct (rotation_random n (default_rng seed)) as [[qs g1]|] eqn:Hr;
    [|discriminate].
  pose proof (rotation_random_length _ _ _ _ Hr) as Hlq.
  destruct (uniform 0 1 n g1) as [[us g2]|] eqn:Hu; [|discriminate].
  pose proof (uniform_length _ _ _ _ _ _ Hu) as Hlu.
  destruct (uniform 0 1 n g2) as [[vs g3]|] eqn:Hv; [|discriminate].
  pose proof (uniform_length _ _ _ _ _ _ Hv) as Hlv.
  destruct (uniform 0 max_z n g3) as [[zs g4]|] eqn:Hz; [|discriminate].
  pose proof (uniform_length _ _ _ _ _ _ Hz) as Hlz.
  simpl in *. intros H; inversion H; subst ps; clear H.
  exists qs, g1, us, g2, vs, g3, zs, g4.
  do 4 (split; [done|]). split.
  - rewrite !length_zip_with, !length_fmap, length_replicate. lia.
  - intros i Hi.
    destruct (lookup_lt_is_Some_2 qs i ltac:(lia)) as [q Hq].
    destruct (lookup_lt_is_Some_2 us i ltac:(lia)) as [u Hu'].
    destruct (lookup_lt_is_Some_2 vs i ltac:(lia)) as [v Hv'].
    destruct (lookup_lt_is_Some_2 zs i ltac:(lia)) as [z Hz'].
    exists q, u, v, z. do 4 (split; [done|]).
    rewrite !lookup_zip_with, !list_lookup_fmap, lookup_replicate_2 by lia.
    rewrite Hq, Hu', Hv', Hz'. reflexivity.
Qed.

Lemma from_quat_unit qs qs' : from_quat qs = Some qs' -> Forall unit_quat qs'.
Proof.
  unfold from_quat. destruct (existsb _ qs) eqn:He; intros H; inversion H; subst.
  apply Forall_fmap, Forall_forall. intros q Hq. unfold compose, unit_quat; simpl.
  assert (Hn : quat_norm q <> 0).
  { intros Hz. assert (Hin : In q qs) by (apply list_elem_of_In; done).
    assert (Hx : existsb (fun q => if Req_dec_T (quat_norm q) 0 then true else false)
                   qs = true).
    { apply existsb_exists. exists q. split; [done|].
      destruct (Req_dec_T (quat_norm q) 0); [done|contradiction]. }
    rewrite He in Hx; discriminate. }
  unfold quat_norm in *.
  set (s := qx q * qx q + qy q * qy q + qz q * qz q + qw q * qw q) in *.
  assert (Hs : 0 <= s) by (unfold s; nra).
  pose proof (sqrt_sqrt s Hs) as Hss.
  set (n := sqrt s) in *.
  transitivity (s / (n * n)); [unfold s; field; done|].
  rewrite Hss. field. intros H0. apply Hn. unfold n. rewrite H0. apply sqrt_0.
Qed.

Lemma rotation_random_unit num g qs g' :
  rotation_random num g = Some (qs, g') -> Forall unit_quat qs.
Proof.
  unfold rotation_random. destruct (draws _ _ _) as [flat g1].
  destruct (from_quat _) as [qs1|] eqn:Hq; intros H; inversion H; subst.
  by eapply from_quat_unit.
Qed.

(** scipy's matrix of an arbitrary quaternion has Gram matrix [s^2 I] and
    determinant [s^3], [s] the squared norm. *)
Lemma as_matrix_gram q i j : (i < 3)%nat -> (j < 3)%nat ->
  let m := as_matrix q in
  let s := qx q * qx q + qy q * qy q + qz q * qz q + qw q * qw q in
  entry m i 0 * entry m j 0 + entry m i 1 * entry m j 1 + entry m i 2 * entry m j 2
  = if Nat.eqb i j then s * s else 0.
Proof.
  intros Hi Hj; destruct q as [x y z w].
  destruct i as [|[|[|i]]]; try lia; destruct j as [|[|[|j]]]; try lia;
    cbn; ring.
Qed.

Lemma as_matrix_det q :
  let m := as_matrix q in
  let s := qx q * qx q + qy q * qy q + qz q * qz q + qw q * qw q in
  entry m 0 0 * (entry m 1 1 * entry m 2 2 - entry m 1 2 * entry m 2 1)
  - entry m 0 1 * (entry m 1 0 * entry m 2 2 - entry m 1 2 * entry m 2 0)
  + entry m 0 2 * (entry m 1 0 * entry m 2 1 - entry m 1 1 * entry m 2 0)
  = s * s * s.
Proof. destruct q as [x y z w]; cbn; ring. Qed.

Lemma pose_of_homogeneous max_radius q u v z :
  unit_quat q ->
  let tf := pose_of max_radius q u v z in
  length tf = 4%nat /\ Forall (fun row => length row = 4%nat) tf /\
  rot_rows_orthonormal tf /\ det3 tf = 1 /\ tf !! 3%nat = Some [0; 0; 0; 1].
Proof.
  intros Hq tf. unfold tf; rewrite pose_of_eq.
  split; [done|]. split; [repeat constructor|].
  split; [|split; [|done]].
  - intros i j Hi Hj. pose proof (as_matrix_gram q i j Hi Hj) as Hg.
    unfold unit_quat in Hq. simpl in Hg. rewrite Hq in Hg.
    destruct i as [|[|[|i]]]; try lia; destruct j as [|[|[|j]]]; try lia;
      cbn in *; lra.
  - unfold det3. pose proof (as_matrix_det q) as Hd.
    unfold unit_quat in Hq. simpl in Hd. rewrite Hq in Hd. cbn in *. lra.
Qed.

Lemma sqrt_uniform_le1 u : 0 <= u < 1 -> 0 <= sqrt u <= 1.
Proof.
  intros Hu. split; [apply sqrt_pos|].
  rewrite <- sqrt_1. apply sqrt_le_1_alt. lra.
Qed.

Lemma pose_of_bounds max_radius max_z q u v z :
  0 <= max_radius -> 0 <= u < 1 -> 0 <= z <= max_z ->
  let tf := pose_of max_radius q u v z in
  sqrt (entry tf 0 3 * entry tf 0 3 + entry tf 1 3 * entry tf 1 3) <= max_radius /\
  0 <= entry tf 2 3 <= max_z.
Proof.
  intros Hr Hu Hz tf. unfold tf; rewrite pose_of_eq. cbn.
  set (r := max_radius * sqrt u). set (a := 2 * PI * v).
  pose proof (sqrt_uniform_le1 u Hu) as Hs.
  assert (Hr0 : 0 <= r) by (unfold r; nra).
  replace (r * cos a * (r * cos a) + r * sin a * (r * sin a))
    with (r * r * (Rsqr (sin a) + Rsqr (cos a))) by (unfold Rsqr; ring).
  rewrite sin2_cos2, Rmult_1_r, sqrt_square by done.
  split; [unfold r; nra | lra].
Qed.

Lemma next_double_bisim g1 g2 : gen_bisim g1 g2 ->
  (next_double g1).1 = (next_double g2).1 /\
  gen_bisim (next_double g1).2 (next_double g2).2.
Proof.
  intros H; inversion H as [? ? Hu Hb _ _]; subst. unfold next_double.
  destruct (next_uint64 g1) as [r1 h1], (next_uint64 g2) as [r2 h2].
  simpl in *; subst; auto.
Qed.

Lemma random_normal_bisim loc scale g1 g2 : gen_bisim g1 g2 ->
  (random_normal loc scale g1).1 = (random_normal loc scale g2).1 /\
  gen_bisim (random_normal loc scale g1).2 (random_normal loc scale g2).2.
Proof.
  intros H; inversion H as [? ? _ _ Hn Hb]; subst. unfold random_normal.
  destruct (random_standard_normal g1) as [r1 h1],
    (random_standard_normal g2) as [r2 h2].
  simpl in *; subst; auto.
Qed.

Lemma random_uniform_bisim low range g1 g2 : gen_bisim g1 g2 ->
  (random_uniform low range g1).1 = (random_uniform low range g2).1 /\
  gen_bisim (random_uniform low range g1).2 (random_uniform low range g2).2.
Proof.
  intros H; apply next_double_bisim in H. unfold random_uniform.
  destruct (next_double g1) as [d1 h1], (next_double g2) as [d2 h2].
  simpl in *; destruct H; subst; auto.
Qed.

Lemma draws_bisim {A} (f : G -> A * G) n g1 g2 :
  (forall h1 h2, gen_bisim h1 h2 ->
     (f h1).1 = (f h2).1 /\ gen_bisim (f h1).2 (f h2).2) ->
  gen_bisim g1 g2 ->
  (draws f n g1).1 = (draws f n g2).1 /\ gen_bisim (draws f n g1).2 (draws f n g2).2.
Proof.
  intros Hf; revert g1 g2; induction n as [|n IH]; intros g1 g2 H; simpl; [auto|].
  destruct (Hf g1 g2 H) as [Hx Hb].
  destruct (f g1) as [x1 h1], (f g2) as [x2 h2]; simpl in *; subst.
  destruct (IH h1 h2 Hb) as [Hxs Hb'].
  destruct (draws f n h1) as [xs1 k1], (draws f n h2) as [xs2 k2].
  simpl in *; subst; auto.
Qed.

Lemma uniform_bisim low high n g1 g2 : gen_bisim g1 g2 ->
  match uniform low high n g1, uniform low high n g2 with
  | Some (xs1, h1), Some (xs2, h2) => xs1 = xs2 /\ gen_bisim h1 h2
  | None, None => True
  | _, _ => False
  end.
Proof.
  intros H. unfold uniform. destruct (Rlt_dec _ 0); [done|].
  destruct (draws_bisim _ n g1 g2 (random_uniform_bisim low (high - low)) H)
    as [Hx Hb].
  destruct (draws _ n g1), (draws _ n g2). simpl in *. auto.
Qed.

Lemma rotation_random_bisim num g1 g2 : gen_bisim g1 g2 ->
  match rotation_random num g1, rotation_random num g2 with
  | Some (qs1, h1), Some (qs2, h2) => qs1 = qs2 /\ gen_bisim h1 h2
  | None, None => True
  | _, _ => False
  end.
Proof.
  intros H. unfold rotation_random.
  destruct (draws_bisim (random_normal 0 1) (4 * num) g1 g2
              (random_normal_bisim 0 1) H) as [Hf Hb].
  destruct (draws _ _ g1) as [f1 h1], (draws _ _ g2) as [f2 h2].
  simpl in *; subst. destruct (from_quat _); auto.
Qed.

(** ** Lemmas on the evaluator *)

Lemma for_cons {A} (x : A) xs body w :
  for_ (x :: xs) body w =
  match body x w with
  | (Ok _, w') => for_ xs body w'
  | (Raise e, w') => (Raise e, w')
  end.
Proof. reflexivity. Qed.

(** One iteration of the loop of [evaluate_ik]. *)
Lemma ik_step_spec tl rl th it sd k w tfs tf bs :
  heap w !! tl = Some (VPoses tfs) -> tfs !! k = Some tf ->
  heap w !! rl = Some (VBools bs) -> (k < length bs)%nat ->
  let '(pos, quat) := tf_to_pos_quat tf in
  match inverse_kinematics (sim w) pos quat th it sd with
  | (IKReturn o, s') =>
      ik_step tl rl th it sd k w =
      (Ok tt, mkWorld (<[rl := VBools (<[k := is_not_none o]> bs)]> (heap w)) s'
                (log w ++ [ik_event th it sd tf (IKReturn o)]))
  | (IKRaise e, s') =>
      ik_step tl rl th it sd k w =
      (Raise (ExcSolver e),
       mkWorld (heap w) s' (log w ++ [ik_event th it sd tf (IKRaise e)]))
  end.
Proof.
  intros Htl Htf Hrl Hk. unfold ik_event.
  destruct (tf_to_pos_quat tf) as [pos quat] eqn:Hpq. simpl.
  destruct (inverse_kinematics (sim w) pos quat th it sd) as [[o|e] s'] eqn:Hik;
    cbv beta iota zeta delta [ik_step bind load_poses load index call_ik
      store_bool ret raise set_heap];
    rewrite Htl; cbv beta iota zeta; rewrite Htf; cbv beta iota zeta;
    rewrite Hpq; cbv beta iota zeta; rewrite Hik; cbv beta iota zeta; [|done].
  cbn [heap sim log]. rewrite Hrl; cbv beta iota zeta. rewrite decide_True by done. done.
Qed.


(** The loop of [evaluate_ik] from index [k] on, with [m] indices left. *)
Lemma ik_loop_spec tl rl th it sd tfs m : forall k pre w,
  tl <> rl ->
  heap w !! tl = Some (VPoses tfs) ->
  heap w !! rl = Some (VBools (pre ++ replicate m false)) ->
  length pre = k -> (k + m = length tfs)%nat ->
  let '(r, w') := for_ (seq k m) (ik_step tl rl th it sd) w in
  (forall l, l <> rl -> heap w' !! l = heap w !! l) /\
  exists outs,
    (r = Ok tt /\ length outs = m /\
     log w' = log w ++ zip_with (fun tf o => ik_event th it sd tf (IKReturn o))
                                (drop k tfs) outs /\
     heap w' !! rl = Some (VBools (pre ++ (is_not_none <$> outs))))
    \/
    (exists e tf, r = Raise (ExcSolver e) /\ (length outs < m)%nat /\
     tfs !! (k + length outs)%nat = Some tf /\
     log w' = log w ++ zip_with (fun tf o => ik_event th it sd tf (IKReturn o))
                                (drop k tfs) outs
              ++ [ik_event th it sd tf (IKRaise e)]).
Proof.
  induction m as [|m IH]; intros k pre w Hne Htl Hrl Hk Hkm.
  - simpl. split; [done|]. exists []. left.
    rewrite zip_with_nil_r, !app_nil_r. repeat split; try done.
    rewrite Hrl, app_nil_r. done.
  - destruct (lookup_lt_is_Some_2 tfs k ltac:(lia)) as [tf Htf].
    change (seq k (S m)) with (k :: seq (S k) m). rewrite for_cons.
    pose proof (ik_step_spec tl rl th it sd k w tfs tf _ Htl Htf Hrl
                  ltac:(rewrite length_app, length_replicate; lia)) as Hs.
    destruct (tf_to_pos_quat tf) as [pos quat] eqn:Hpq.
    destruct (inverse_kinematics (sim w) pos quat th it sd) as [[sol|e] s'] eqn:Hik;
      rewrite Hs.
    + set (b := is_not_none sol).
      assert (Hins : <[k := b]> (pre ++ replicate (S m) false)
                     = (pre ++ [b]) ++ replicate m false).
      { rewrite <- Hk, <- (Nat.add_0_r (length pre)), insert_app_r.
        simpl. rewrite <- app_assoc. done. }
      rewrite Hins.
      set (w2 := mkWorld (<[rl := VBools ((pre ++ [b]) ++ replicate m false)]> (heap w))
                   s' (log w ++ [ik_event th it sd tf (IKReturn sol)])).
      specialize (IH (S k) (pre ++ [b]) w2 Hne).
      unfold w2 in IH; simpl in IH.
      rewrite lookup_insert_ne in IH by congruence.
      rewrite lookup_insert_eq in IH.
      specialize (IH Htl eq_refl ltac:(rewrite length_app; simpl; lia) ltac:(lia)).
      fold w2 in IH.
      destruct (for_ (seq (S k) m) (ik_step tl rl th it sd) w2) as [r w'].
      destruct IH as [Hfr [outs Hcase]]. split.
      { intros l Hl. rewrite Hfr by done. unfold w2; simpl.
        by rewrite lookup_insert_ne by congruence. }
      rewrite (drop_S tfs tf k Htf).
      exists (sol :: outs). destruct Hcase as [Hok|Herr].
      * left. destruct Hok as (-> & Hl & Hlog & Hh).
        split; [done|]. split; [simpl; lia|]. split.
        -- rewrite Hlog. unfold w2; simpl. rewrite <- app_assoc. done.
        -- rewrite Hh, <- app_assoc. done.
      * right. destruct Herr as (e & tf' & -> & Hl & Htf' & Hlog).
        exists e, tf'. split; [done|]. split; [simpl; lia|]. split.
        -- simpl. rewrite <- Htf'. f_equal. lia.
        -- rewrite Hlog. unfold w2; simpl. rewrite <- !app_assoc. done.
    + split; [done|]. exists []. right. exists e, tf.
      split; [done|]. split; [simpl; lia|]. split.
      * rewrite Nat.add_0_r. done.
      * rewrite zip_with_nil_r. done.
Qed.

Lemma evaluate_ik_unfold tl th it sd tfs w :
  heap w !! tl = Some (VPoses tfs) ->
  let rl := fresh (dom (heap w)) in
  evaluate_ik tl th it sd w =
  match for_ (seq 0 (length tfs)) (ik_step tl rl th it sd)
          (set_heap (<[rl := VBools (replicate (length tfs) false)]> (heap w)) w) with
  | (Ok _, w') => (Ok rl, w')
  | (Raise e, w') => (Raise e, w')
  end.
Proof.
  intros Htl rl.
  cbv beta iota zeta delta [evaluate_ik bind load_poses load alloc ret raise].
  rewrite Htl. cbv beta iota zeta.
  destruct (for_ _ _ _) as [[[]|e] w']; done.
Qed.

(** The whole of [evaluate_ik]: the solver is called on the poses in
    order, with the given threshold, trial budget and seed, until the first
    hard error; the pose array is left as it was. *)
Lemma evaluate_ik_spec tl th it sd tfs w :
  heap w !! tl = Some (VPoses tfs) ->
  let '(r, w') := evaluate_ik tl th it sd w in
  heap w' !! tl = Some (VPoses tfs) /\
  exists outs,
    (exists rl, r = Ok rl /\ length outs = length tfs /\
       log w' = log w ++ zip_with (fun tf o => ik_event th it sd tf (IKReturn o))
                                  tfs outs /\
       heap w' !! rl = Some (VBools (is_not_none <$> outs)))
    \/
    (exists e tf, r = Raise (ExcSolver e) /\ (length outs < length tfs)%nat /\
       tfs !! length outs = Some tf /\
       log w' = log w ++ zip_with (fun tf o => ik_event th it sd tf (IKReturn o))
                                  tfs outs
                ++ [ik_event th it sd tf (IKRaise e)]).
Proof.
  intros Htl. rewrite (evaluate_ik_unfold tl th it sd tfs w Htl).
  set (rl := fresh (dom (heap w))).
  assert (Hne : tl <> rl).
  { intros ->. apply (is_fresh (dom (heap w))). fold rl.
    apply elem_of_dom. rewrite Htl. done. }
  set (w1 := set_heap (<[rl := VBools (replicate (length tfs) false)]> (heap w)) w).
  pose proof (ik_loop_spec tl rl th it sd tfs (length tfs) 0 [] w1 Hne) as Hl.
  unfold w1, set_heap in Hl; simpl in Hl.
  rewrite lookup_insert_ne in Hl by done. rewrite lookup_insert_eq in Hl.
  specialize (Hl Htl eq_refl eq_refl eq_refl). fold (set_heap (<[rl := VBools (replicate (length tfs) false)]> (heap w)) w) in Hl. fold w1 in Hl.
  destruct (for_ _ _ w1) as [r w'].
  destruct Hl as [Hfr [outs Hcase]].
  assert (Htl' : heap w' !! tl = Some (VPoses tfs)).
  { rewrite Hfr by done. unfold w1, set_heap; simpl.
    rewrite lookup_insert_ne by done. done. }
  rewrite drop_0 in Hcase.
  destruct Hcase as [(-> & Hlen & Hlog & Hh)|(e & tf & -> & Hlen & Htf & Hlog)];
    (split; [done|]); exists outs; [left|right].
  - exists rl. done.
  - exists e, tf. done.
Qed.

Lemma zip_with_take_len {A B C} (f : A -> B -> C) (l : list A) (k : list B) :
  zip_with f (take (length k) l) k = zip_with f l k.
Proof.
  revert l; induction k as [|y k IH]; intros [|x l]; simpl; try done.
  by rewrite IH.
Qed.

Lemma zip_with_snoc {A B C} (f : A -> B -> C) (l : list A) (k : list B) x y :
  l !! length k = Some x ->
  zip_with f l (k ++ [y]) = zip_with f l k ++ [f x y].
Proof.
  intros Hx. rewrite zip_with_app_r, zip_with_take_len, (drop_S l x _ Hx).
  simpl. by rewrite zip_with_nil_r.
Qed.

(** The calls [evaluate_ik] makes, as one list of outcomes aligned with
    the poses: all returned, one per pose, or the returned ones followed
    by the first hard error. *)
Lemma evaluate_ik_trace tl th it sd tfs w :
  heap w !! tl = Some (VPoses tfs) ->
  let '(r, w') := evaluate_ik tl th it sd w in
  exists outs,
    log w' = log w ++ zip_with (ik_event th it sd) tfs outs /\
    ((exists rl v, r = Ok rl /\ heap w' !! rl = Some (VBools v)) /\
     length outs = length tfs /\ Forall (fun o => returned o = true) outs
     \/
     exists pre e, outs = pre ++ [IKRaise e] /\ r = Raise (ExcSolver e) /\
       (length pre < length tfs)%nat /\ Forall (fun o => returned o = true) pre).
Proof.
  intros Htl. pose proof (evaluate_ik_spec tl th it sd tfs w Htl) as Hs.
  destruct (evaluate_ik tl th it sd w) as [r w'].
  destruct Hs as [_ [outs [(rl & -> & Hlen & Hlog & Hh)|(e & tf & -> & Hlen & Htf & Hlog)]]].
  - exists (IKReturn <$> outs). split.
    + rewrite Hlog, zip_with_fmap_r. done.
    + left. split; [eauto|]. rewrite length_fmap. split; [done|].
      apply Forall_fmap, Forall_true. done.
  - exists ((IKReturn <$> outs) ++ [IKRaise e]). split.
    + rewrite Hlog, zip_with_snoc with (x := tf) by (rewrite length_fmap; done).
      rewrite zip_with_fmap_r. done.
    + right. exists (IKReturn <$> outs), e. rewrite length_fmap.
      do 3 (split; [done|]). apply Forall_fmap, Forall_true. done.
Qed.

Lemma ik_events_are_ik th it sd tfs outs :
  Forall (fun ev => is_ik_event ev = true) (zip_with (ik_event th it sd) tfs outs).
Proof.
  revert outs; induction tfs as [|tf tfs IH]; intros [|o outs]; simpl;
    constructor; auto.
Qed.

(** [main] in full: the directory, the simulator, the saved poses, the
    solver calls until the first hard error, then the teardown and the
    saved verdicts; the run stops at the first action that raises. *)
Lemma main_run_spec args rr rz w :
  let d := eval_data_dir args in
  let P ps := EvSave (d +:+ "/poses.npy") (VPoses ps) in
  let calls ps outs :=
    zip_with (fun tf o => ik_event (threshold args) (iterations args)
                            (seed args) tf (IKReturn o)) ps outs in
  let '(r, w') := main args rr rz w in
  exists new, log w' = log w ++ EvMkdir d :: new /\
  ((exists errno, r = Raise (ExcOSError errno d) /\ new = []) \/
   (r = Raise ExcSetup /\ new = []) \/
   (r = Raise ExcValueError /\ new = [] /\
    get_evaluation_poses rr rz (num_samples args) (seed args) = None) \/
   exists ps, get_evaluation_poses rr rz (num_samples args) (seed args) = Some ps /\
   ((exists errno, r = Raise (ExcOSError errno (d +:+ "/poses.npy")) /\ new = [P ps]) \/
    exists outs,
      (exists e tf, r = Raise (ExcSolver e) /\ (length outs < length ps)%nat /\
         ps !! length outs = Some tf /\
         new = P ps :: calls ps outs
               ++ [ik_event (threshold args) (iterations args) (seed args) tf (IKRaise e)])
      \/
      (length outs = length ps /\
       new = P ps :: calls ps outs
             ++ [EvDisconnect;
                 EvSave (d +:+ "/reachable_by_ik.npy") (VBools (is_not_none <$> outs))] /\
       (r = Ok tt \/
        exists errno, r = Raise (ExcOSError errno (d +:+ "/reachable_by_ik.npy")))))).
Proof.
  intros d P calls.
  cbv beta iota zeta delta [main bind emit alloc save load ret raise set_heap
                            mkdir storage setup_sim].
  cbn [heap sim log].
  change ("data/eval_poses_" +:+ _) with d.
  destruct (storage_error (log w) (EvMkdir d)) as [errno|];
    cbv beta iota zeta; cbn [heap sim log].
  { exists []. split; [done|]. left. eauto. }
  destruct (get_sim_and_robot (robot_type args) (degrees args) (sim w)) as [s1|];
    cbv beta iota zeta; cbn [heap sim log].
  2:{ exists []. split; [done|]. right; left. done. }
  destruct (get_evaluation_poses rr rz (num_samples args) (seed args)) as [ps|] eqn:Hp;
    cbv beta iota zeta; cbn [heap sim log].
  2:{ exists []. split; [done|]. right; right; left. done. }
  set (pl := fresh (dom (heap w))).
  rewrite lookup_insert_eq. cbv beta iota zeta. cbn [heap sim log].
  destruct (storage_error (log w ++ [EvMkdir d])
              (EvSave (d +:+ "/poses.npy") (VPoses ps))) as [errno|];
    cbv beta iota zeta; cbn [heap sim log].
  { exists [P ps]. split; [rewrite <- app_assoc; done|].
    do 3 right. exists ps. split; [done|]. left. eauto. }
  set (w2 := mkWorld (<[pl := VPoses ps]> (heap w)) s1
               ((log w ++ [EvMkdir d]) ++ [EvSave (d +:+ "/poses.npy") (VPoses ps)])).
  pose proof (evaluate_ik_spec pl (threshold args) (iterations args) (seed args)
                ps w2 ltac:(apply lookup_insert_eq)) as Hs.
  destruct (evaluate_ik pl _ _ _ w2) as [r w'].
  destruct Hs as [_ [outs [(rl & -> & Hlen & Hlog & Hh)|(e & tf & -> & Hlen & Htf & Hlog)]]];
    cbv beta iota zeta; cbn [heap sim log].
  - rewrite Hh. cbv beta iota zeta. cbn [heap sim log].
    destruct (storage_error _ _) as [errno|]; cbv beta iota zeta; cbn [heap sim log];
      exists (P ps :: calls ps outs
              ++ [EvDisconnect;
                  EvSave (d +:+ "/reachable_by_ik.npy") (VBools (is_not_none <$> outs))]);
      (split;
       [rewrite Hlog; unfold w2; simpl; rewrite <- !app_assoc; done
       |do 3 right; exists ps; split; [done|]; right; exists outs; right;
        split; [done|]; split; [done|]; eauto]).
  - exists (P ps :: calls ps outs
            ++ [ik_event (threshold args) (iterations args) (seed args) tf (IKRaise e)]).
    split.
    + rewrite Hlog. unfold w2; simpl. rewrite <- !app_assoc. done.
    + do 3 right. exists ps. split; [done|]. right. exists outs. left.
      exists e, tf. done.
Qed.

(** [main]: the directory is created; then, unless the run stops before,
    the whole pose set is sampled and saved, [evaluate_ik] runs on it, and
    only non-solver actions follow. *)
Lemma main_spec args rr rz w :
  let '(r, w') := main args rr rz w in
  exists d new, log w' = log w ++ EvMkdir d :: new /\
  (new = [] \/
   exists ps outs rest,
     get_evaluation_poses rr rz (num_samples args) (seed args) = Some ps /\
     new = EvSave (d +:+ "/poses.npy") (VPoses ps)
           :: zip_with (ik_event (threshold args) (iterations args) (seed args))
                ps outs ++ rest /\
     Forall (fun ev => is_ik_event ev = false) rest).
Proof.
  pose proof (main_run_spec args rr rz w) as Hm. cbv beta zeta in Hm.
  destruct (main args rr rz w) as [r w'].
  destruct Hm as (new & Hlog & Hcase). exists (eval_data_dir args), new.
  split; [done|].
  destruct Hcase as [(? & _ & ->)|[(_ & ->)|[(_ & -> & _)|(ps & Hp & Hcase)]]];
    [by left..|].
  right. exists ps.
  destruct Hcase as [(? & _ & ->)|(outs & [(e & tf & _ & Hlen & Htf & ->)|(Hlen & -> & _)])].
  - exists [], []. split; [done|]. split; [|constructor].
    by rewrite zip_with_nil_r.
  - exists ((IKReturn <$> outs) ++ [IKRaise e]), []. split; [done|].
    split; [|constructor].
    rewrite app_nil_r, zip_with_snoc with (x := tf) by (rewrite length_fmap; done).
    rewrite zip_with_fmap_r. done.
  - exists (IKReturn <$> outs),
      [EvDisconnect;
       EvSave (eval_data_dir args +:+ "/reachable_by_ik.npy") (VBools (is_not_none <$> outs))].
    split; [done|]. split.
    + rewrite zip_with_fmap_r. done.
    + repeat constructor.
Qed.

(** ** Claims on the pose sampler *)

(** C1: each sampled position follows the disk-area-correct law: with
    [u] from the first block of uniform(0,1) draws after the rotations, [v]
    from the second and [z] from a third block of uniform(0, max_z) draws,
    x = max_radius*sqrt(u)*cos(2*pi*v), y = max_radius*sqrt(u)*sin(2*pi*v)
    and z is the height draw; the angle lies in [0, 2*pi). *)
Theorem sampler_position_law max_radius max_z n seed :
  match get_evaluation_poses max_radius max_z n seed with
  | None => True
  | Some ps =>
      exists qs g1 us g2 vs g3 zs g4,
        rotation_random n (default_rng seed) = Some (qs, g1) /\
        uniform 0 1 n g1 = Some (us, g2) /\
        uniform 0 1 n g2 = Some (vs, g3) /\
        uniform 0 max_z n g3 = Some (zs, g4) /\
        forall i tf, ps !! i = Some tf ->
          exists u v z,
            us !! i = Some u /\ vs !! i = Some v /\ zs !! i = Some z /\
            0 <= u < 1 /\ 0 <= 2 * PI * v < 2 * PI /\
            (exists d, 0 <= d < 1 /\ z = 0 + (max_z - 0) * d) /\
            entry tf 0 3 = max_radius * sqrt u * cos (2 * PI * v) /\
            entry tf 1 3 = max_radius * sqrt u * sin (2 * PI * v) /\
            entry tf 2 3 = z
  end.
Proof.
  destruct (get_evaluation_poses max_radius max_z n seed) as [ps|] eqn:Hp;
    [|done].
  destruct (sampler_spec _ _ _ _ _ Hp)
    as (qs & g1 & us & g2 & vs & g3 & zs & g4 & Hr & Hu & Hv & Hz & Hl & Hi).
  exists qs, g1, us, g2, vs, g3, zs, g4. do 4 (split; [done|]).
  intros i tf Htf.
  assert (Hlt : (i < n)%nat) by (rewrite <- Hl; eapply lookup_lt_Some; eauto).
  destruct (Hi i Hlt) as (q & u & v & z & Hq & Hu' & Hv' & Hz' & Hps).
  assert (Etf : Some tf = Some (pose_of max_radius q u v z)) by (rewrite <- Htf, <- Hps; done).
  inversion Etf; subst tf.
  exists u, v, z. do 3 (split; [done|]).
  pose proof (uniform_range _ _ _ _ _ _ Hu) as Ru.
  pose proof (uniform_range _ _ _ _ _ _ Hv) as Rv.
  pose proof (uniform_range _ _ _ _ _ _ Hz) as Rz.
  destruct (proj1 (Forall_lookup _ _) Ru i u Hu') as (du & Hdu & ->).
  destruct (proj1 (Forall_lookup _ _) Rv i v Hv') as (dv & Hdv & ->).
  pose proof (proj1 (Forall_lookup _ _) Rz i z Hz') as Hzd.
  pose proof PI_RGT_0.
  rewrite pose_of_eq. cbn.
  split; [lra|]. split; [nra|]. split; [done|]. auto.
Qed.


(** C4: every sampled position lies in the cylinder: sqrt(x^2+y^2) <=
    max_radius and 0 <= z <= max_z; hence max_radius = 0 gives x = y = 0 and
    max_z = 0 gives z = 0. *)
Theorem sampler_in_cylinder max_radius max_z n seed :
  0 <= max_radius -> 0 <= max_z ->
  match get_evaluation_poses max_radius max_z n seed with
  | None => True
  | Some ps =>
      Forall (fun tf =>
        sqrt (entry tf 0 3 * entry tf 0 3 + entry tf 1 3 * entry tf 1 3)
          <= max_radius /\
        0 <= entry tf 2 3 <= max_z /\
        (max_radius = 0 -> entry tf 0 3 = 0 /\ entry tf 1 3 = 0) /\
        (max_z = 0 -> entry tf 2 3 = 0)) ps
  end.
Proof.
  intros Hr Hzr.
  destruct (get_evaluation_poses max_radius max_z n seed) as [ps|] eqn:Hp;
    [|done].
  destruct (sampler_spec _ _ _ _ _ Hp)
    as (qs & g1 & us & g2 & vs & g3 & zs & g4 & Hrr & Hu & Hv & Hz & Hl & Hi).
  apply Forall_lookup. intros i tf Htf.
  assert (Hlt : (i < n)%nat) by (rewrite <- Hl; eapply lookup_lt_Some; eauto).
  destruct (Hi i Hlt) as (q & u & v & z & Hq & Hu' & Hv' & Hz' & Hps).
  assert (Etf : Some tf = Some (pose_of max_radius q u v z)) by (rewrite <- Htf, <- Hps; done).
  inversion Etf; subst tf.
  pose proof (uniform_range _ _ _ _ _ _ Hu) as Ru.
  pose proof (uniform_range _ _ _ _ _ _ Hz) as Rz.
  destruct (proj1 (Forall_lookup _ _) Ru i u Hu') as (du & Hdu & ->).
  destruct (proj1 (Forall_lookup _ _) Rz i z Hz') as (dz & Hdz & ->).
  assert (Hu1 : 0 <= 0 + (1 - 0) * du < 1) by lra.
  assert (Hz1 : 0 <= 0 + (max_z - 0) * dz <= max_z) by nra.
  destruct (pose_of_bounds max_radius max_z q _ v _ Hr Hu1 Hz1) as [Hb1 Hb2].
  split; [done|]. split; [done|].
  rewrite pose_of_eq; cbn. split.
  - intros ->. split; ring.
  - intros ->. ring.
Qed.

(** C5: every sampled pose is a 4x4 homogeneous transform whose
    upper-left 3x3 block has orthonormal rows and determinant 1 and whose
    bottom row is [0,0,0,1]. *)
Theorem sampler_poses_homogeneous max_radius max_z n seed :
  match get_evaluation_poses max_radius max_z n seed with
  | None => True
  | Some ps =>
      Forall (fun tf =>
        length tf = 4%nat /\ Forall (fun row => length row = 4%nat) tf /\
        rot_rows_orthonormal tf /\ det3 tf = 1 /\
        tf !! 3%nat = Some [0; 0; 0; 1]) ps
  end.
Proof.
  destruct (get_evaluation_poses max_radius max_z n seed) as [ps|] eqn:Hp;
    [|done].
  destruct (sampler_spec _ _ _ _ _ Hp)
    as (qs & g1 & us & g2 & vs & g3 & zs & g4 & Hrr & Hu & Hv & Hz & Hl & Hi).
  pose proof (rotation_random_unit _ _ _ _ Hrr) as Hunit.
  apply Forall_lookup. intros i tf Htf.
  assert (Hlt : (i < n)%nat) by (rewrite <- Hl; eapply lookup_lt_Some; eauto).
  destruct (Hi i Hlt) as (q & u & v & z & Hq & Hu' & Hv' & Hz' & Hps).
  assert (Etf : Some tf = Some (pose_of max_radius q u v z)) by (rewrite <- Htf, <- Hps; done).
  inversion Etf; subst tf.
  apply pose_of_homogeneous.
  exact (proj1 (Forall_lookup _ _) Hunit i q Hq).
Qed.

(** C6: the sampler is deterministic: two runs whose generators are seeded
    alike (their draws coincide, as for two [default_rng] with the same
    seed) give the same pose set. *)
Theorem sampler_deterministic seed1 seed2 max_radius max_z n :
  gen_bisim (default_rng seed1) (default_rng seed2) ->
  get_evaluation_poses max_radius max_z n seed1 =
  get_evaluation_poses max_radius max_z n seed2.
Proof.
  intros H. unfold get_evaluation_poses.
  pose proof (rotation_random_bisim n _ _ H) as Hr.
  destruct (rotation_random n (default_rng seed1)) as [[qs1 h1]|],
    (rotation_random n (default_rng seed2)) as [[qs2 h2]|]; try contradiction;
    [|done].
  destruct Hr as [<- Hb].
  pose proof (uniform_bisim 0 1 n _ _ Hb) as Hu.
  destruct (uniform 0 1 n h1) as [[us1 k1]|], (uniform 0 1 n h2) as [[us2 k2]|];
    try contradiction; [|done].
  destruct Hu as [<- Hb1].
  pose proof (uniform_bisim 0 1 n _ _ Hb1) as Hv.
  destruct (uniform 0 1 n k1) as [[vs1 l1]|], (uniform 0 1 n k2) as [[vs2 l2]|];
    try contradiction; [|done].
  destruct Hv as [<- Hb2].
  pose proof (uniform_bisim 0 max_z n _ _ Hb2) as Hz.
  destruct (uniform 0 max_z n l1) as [[zs1 m1]|], (uniform 0 max_z n l2) as [[zs2 m2]|];
    try contradiction; [|done].
  destruct Hz as [<- _]. reflexivity.
Qed.

(** ** Claims on the reachability evaluator and the run *)

(** C2: when [evaluate_ik] returns, it returns a boolean array with one
    entry per pose, aligned by index: the i-th solver call is made on pose
    i with the given threshold and trial budget, and the i-th entry is true
    iff that call returned a solution (not [None]). *)
Theorem evaluate_ik_verdicts tl th it sd tfs w :
  heap w !! tl = Some (VPoses tfs) ->
  match evaluate_ik tl th it sd w with
  | (Ok rl, w') =>
      exists v outs,
        heap w' !! rl = Some (VBools v) /\ length v = length tfs /\
        log w' = log w ++ zip_with (fun tf o => ik_event th it sd tf (IKReturn o))
                                   tfs outs /\
        forall i, (i < length tfs)%nat ->
          exists tf o, tfs !! i = Some tf /\ outs !! i = Some o /\
            (v !! i = Some true <-> o <> None) /\
            (v !! i = Some false <-> o = None)
  | (Raise _, _) => True
  end.
Proof.
  intros Htl. pose proof (evaluate_ik_spec tl th it sd tfs w Htl) as Hs.
  destruct (evaluate_ik tl th it sd w) as [r w'].
  destruct Hs as [_ [outs [(rl & -> & Hlen & Hlog & Hh)|(e & tf & -> & _)]]];
    [|done].
  exists (is_not_none <$> outs), outs.
  split; [done|]. split; [by rewrite length_fmap|]. split; [done|].
  intros i Hi.
  destruct (lookup_lt_is_Some_2 tfs i Hi) as [tf Htf].
  destruct (lookup_lt_is_Some_2 outs i ltac:(lia)) as [o Ho].
  exists tf, o. split; [done|]. split; [done|].
  rewrite list_lookup_fmap, Ho. simpl.
  destruct o; simpl; split; split; intros H; congruence.
Qed.

(** C7 (amended): [evaluate_ik] calls the solver once per pose, in index
    order, with no retry of its own: n calls when no call raises a hard
    error, and otherwise exactly the calls on poses 0..k, k being the pose
    whose call raised. *)
Theorem evaluate_ik_one_call_per_pose tl th it sd tfs w :
  heap w !! tl = Some (VPoses tfs) ->
  let '(r, w') := evaluate_ik tl th it sd w in
  exists outs,
    log w' = log w ++ zip_with (ik_event th it sd) tfs outs /\
    ((exists rl, r = Ok rl) /\ length outs = length tfs /\
     Forall (fun o => returned o = true) outs
     \/
     exists pre e, outs = pre ++ [IKRaise e] /\ r = Raise (ExcSolver e) /\
       (length pre < length tfs)%nat /\ Forall (fun o => returned o = true) pre).
Proof.
  intros Htl. pose proof (evaluate_ik_trace tl th it sd tfs w Htl) as Ht.
  destruct (evaluate_ik tl th it sd w) as [r w'].
  destruct Ht as [outs [Hlog [[(rl & v & -> & _) [Hlen Hret]]|Herr]]];
    exists outs; (split; [done|]); [left; eauto|right; done].
Qed.

(** C8: a hard error raised by the solver is neither caught, retried nor
    suppressed: [evaluate_ik] raises that same error, the raising call is
    the last action of the run (no later pose is evaluated, the pose is not
    retried), and no verdict array is returned. *)
Theorem evaluate_ik_hard_error_propagates tl th it sd tfs w :
  heap w !! tl = Some (VPoses tfs) ->
  let '(r, w') := evaluate_ik tl th it sd w in
  forall new, log w' = log w ++ new ->
  forall j pos quat th' it' sd' e,
    new !! j = Some (EvIK pos quat th' it' sd' (IKRaise e)) ->
    r = Raise (ExcSolver e) /\ length new = S j /\
    exists tf, tfs !! j = Some tf /\ tf_to_pos_quat tf = (pos, quat).
Proof.
  intros Htl. pose proof (evaluate_ik_trace tl th it sd tfs w Htl) as Ht.
  destruct (evaluate_ik tl th it sd w) as [r w'].
  destruct Ht as [outs [Hlog Hcase]].
  intros new Hnew j pos quat th' it' sd' e Hj.
  rewrite Hlog in Hnew. apply app_inv_head in Hnew. subst new.
  apply lookup_zip_with_Some in Hj as (tf & o & Hev & Htf & Ho).
  unfold ik_event in Hev. destruct (tf_to_pos_quat tf) as [p q] eqn:Hpq.
  simpl in Hev. inversion Hev; subst o p q.
  destruct Hcase as [[_ [_ Hall]]|(pre & e0 & -> & -> & Hlen & Hall)].
  - pose proof (proj1 (Forall_lookup _ _) Hall j _ Ho). discriminate.
  - destruct (decide (j < length pre)%nat) as [Hlt|Hge].
    + rewrite lookup_app_l in Ho by done.
      pose proof (proj1 (Forall_lookup _ _) Hall j _ Ho). discriminate.
    + rewrite lookup_app_r in Ho by lia.
      apply list_lookup_singleton_Some in Ho as [Hj0 He]. inversion He; subst e0.
      split; [done|]. split.
      * rewrite length_zip_with, length_app. simpl. lia.
      * exists tf. done.
Qed.

(** C9: the pose set is sampled in full and saved before any solver call
    of the run, and [evaluate_ik] leaves the pose array it is given as it
    was. *)
Theorem poses_fixed_before_evaluation :
  (forall tl th it sd tfs w,
     heap w !! tl = Some (VPoses tfs) ->
     heap (evaluate_ik tl th it sd w).2 !! tl = Some (VPoses tfs)) /\
  (forall args rr rz w,
     let '(r, w') := main args rr rz w in
     exists d new, log w' = log w ++ EvMkdir d :: new /\
     forall j ev, new !! j = Some ev -> is_ik_event ev = true ->
       (0 < j)%nat /\
       exists ps, get_evaluation_poses rr rz (num_samples args) (seed args) = Some ps /\
         length ps = num_samples args /\
         new !! 0%nat = Some (EvSave (d +:+ "/poses.npy") (VPoses ps))).
Proof.
  split.
  - intros tl th it sd tfs w Htl.
    pose proof (evaluate_ik_spec tl th it sd tfs w Htl) as Hs.
    destruct (evaluate_ik tl th it sd w) as [r w']. apply Hs.
  - intros args rr rz w. pose proof (main_spec args rr rz w) as Hm.
    destruct (main args rr rz w) as [r w'].
    destruct Hm as (d & new & Hlog & Hcase). exists d, new. split; [done|].
    intros j ev Hj Hik.
    destruct Hcase as [->|(ps & outs & rest & Hp & -> & _)];
      [by rewrite lookup_nil in Hj|].
    destruct j as [|j]; [simpl in Hj; inversion Hj; subst; discriminate|].
    split; [lia|]. exists ps. split; [done|]. split; [|done].
    by destruct (sampler_spec _ _ _ _ _ Hp) as (? & ? & ? & ? & ? & ? & ? & ? & _ & _ & _ & _ & Hl & _).
Qed.

(** C10: every solver call of a run gets the run's seed, the one the pose
    set was sampled with (as well as its threshold and trial budget), on a
    pose of that pose set. *)
Theorem ik_seed_is_run_seed args rr rz w :
  let '(r, w') := main args rr rz w in
  exists d new, log w' = log w ++ EvMkdir d :: new /\
  forall pos quat th it sd o, EvIK pos quat th it sd o ∈ new ->
    sd = seed args /\ th = threshold args /\ it = iterations args /\
    exists ps tf,
      get_evaluation_poses rr rz (num_samples args) (seed args) = Some ps /\
      tf ∈ ps /\ tf_to_pos_quat tf = (pos, quat).
Proof.
  pose proof (main_spec args rr rz w) as Hm.
  destruct (main args rr rz w) as [r w'].
  destruct Hm as (d & new & Hlog & Hcase). exists d, new. split; [done|].
  intros pos quat th it sd o Hin.
  destruct Hcase as [->|(ps & outs & rest & Hp & -> & Hrest)].
  - apply not_elem_of_nil in Hin. done.
  - apply elem_of_cons in Hin as [Hin|Hin]; [discriminate|].
    apply elem_of_app in Hin as [Hin|Hin].
    + apply list_elem_of_lookup in Hin as [j Hj].
      apply lookup_zip_with_Some in Hj as (tf & o' & Hev & Htf & Ho).
      unfold ik_event in Hev. destruct (tf_to_pos_quat tf) as [p q] eqn:Hpq.
      simpl in Hev. inversion Hev; subst.
      split; [done|]. split; [done|]. split; [done|].
      exists ps, tf. split; [done|]. split; [|done].
      eapply list_elem_of_lookup_2; eauto.
    + pose proof (proj1 (Forall_forall _ _) Hrest _ Hin).
      discriminate.
Qed.

(** A generator state is indistinguishable from itself. *)
Lemma gen_bisim_refl g : gen_bisim g g.
Proof.
  revert g. cofix CIH. intros g. constructor; auto.
Qed.

(** ** Further lemmas on the sampler *)



Lemma from_quat_app qs1 qs2 :
  from_quat (qs1 ++ qs2) =
  match from_quat qs1, from_quat qs2 with
  | Some a, Some b => Some (a ++ b)
  | _, _ => None
  end.
Proof.
  unfold from_quat. rewrite existsb_app.
  destruct (existsb _ qs1), (existsb _ qs2); simpl; try done.
  by rewrite fmap_app.
Qed.

Lemma draws_add {A} (f : G -> A * G) a b g :
  draws f (a + b) g =
  let '(xs, g1) := draws f a g in
  let '(ys, g2) := draws f b g1 in
  (xs ++ ys, g2).
Proof.
  revert g; induction a as [|a IH]; intros g; simpl.
  - by destruct (draws f b g).
  - destruct (f g) as [x g1]. rewrite IH.
    destruct (draws f a g1) as [xs g2]. by destruct (draws f b g2).
Qed.

Lemma reshape4_app m k xs ys :
  length xs = (4 * m)%nat ->
  reshape4 (m + k) (xs ++ ys) = reshape4 m xs ++ reshape4 k ys.
Proof.
  revert xs; induction m as [|m IH]; intros xs Hl.
  - destruct xs; [done|simpl in Hl; lia].
  - destruct xs as [|x [|y [|z [|w rest]]]]; simpl in Hl; try lia.
    simpl. rewrite IH by lia. done.
Qed.


Lemma get_evaluation_poses_None max_radius max_z n seed :
  get_evaluation_poses max_radius max_z n seed = None <->
  rotation_random n (default_rng seed) = None \/ max_z < 0.
Proof.
  unfold get_evaluation_poses.
  destruct (rotation_random n (default_rng seed)) as [[qs g1]|]; [|tauto].
  rewrite uniform_ok by lra. destruct (draws _ n g1) as [us g2].
  cbv beta iota zeta.
  rewrite uniform_ok by lra. destruct (draws _ n g2) as [vs g3].
  cbv beta iota zeta.
  destruct (Rlt_dec max_z 0) as [Hz|Hz].
  - rewrite uniform_neg by lra. split; [intros _; right; lra|done].
  - rewrite uniform_ok by lra. destruct (draws _ n g3) as [zs g4].
    split; [discriminate|]. intros [H|H]; [discriminate|lra].
Qed.

(** The orientations are drawn first: a smaller sample draws a prefix of the
    quaternions of a larger one. *)
Lemma rotation_random_prefix m n g :
  (m <= n)%nat ->
  match rotation_random n g with
  | Some (qs', _) => exists qs g', rotation_random m g = Some (qs, g') /\
                       qs = take m qs'
  | None => True
  end.
Proof.
  intros Hmn. destruct (Nat.le_exists_sub m n Hmn) as [k [-> _]].
  rewrite (Nat.add_comm k m). unfold rotation_random.
  replace (4 * (m + k))%nat with (4 * m + 4 * k)%nat by lia.
  rewrite draws_add.
  pose proof (draws_length (random_normal 0 1) (4 * m) g) as Hl.
  destruct (draws _ (4 * m) g) as [xs g1] eqn:Hx.
  destruct (draws _ (4 * k) g1) as [ys g2]. simpl in Hl.
  rewrite reshape4_app by done. rewrite from_quat_app.
  destruct (from_quat (reshape4 m xs)) as [a|] eqn:Ha; [|done].
  destruct (from_quat (reshape4 k ys)) as [b|]; [|done].
  exists a, g1. split; [done|].
  apply from_quat_length in Ha. rewrite reshape4_length in Ha by done.
  rewrite take_app_length' by done. done.
Qed.

(** ** Further lemmas on the evaluator *)

(** Every log entry the loop of [evaluate_ik] adds is a call of the solver,
    on a pose of the array, whose outcome the solver returned on some
    simulator state. *)
Lemma ik_loop_from_solver tl rl th it sd tfs m : forall k pre w,
  tl <> rl ->
  heap w !! tl = Some (VPoses tfs) ->
  heap w !! rl = Some (VBools (pre ++ replicate m false)) ->
  length pre = k -> (k + m = length tfs)%nat ->
  let '(r, w') := for_ (seq k m) (ik_step tl rl th it sd) w in
  exists new, log w' = log w ++ new /\
    Forall (fun ev => match ev with
                      | EvIK p q th' it' sd' o =>
                          (exists s, (inverse_kinematics s p q th' it' sd').1 = o) /\
                          exists tf, tf ∈ tfs /\ tf_to_pos_quat tf = (p, q)
                      | _ => False
                      end) new.
Proof.
  induction m as [|m IH]; intros k pre w Hne Htl Hrl Hk Hkm.
  - simpl. exists []. rewrite app_nil_r. split; [done|constructor].
  - destruct (lookup_lt_is_Some_2 tfs k ltac:(lia)) as [tf Htf].
    assert (Hin : tf ∈ tfs) by (eapply list_elem_of_lookup_2; eauto).
    change (seq k (S m)) with (k :: seq (S k) m). rewrite for_cons.
    pose proof (ik_step_spec tl rl th it sd k w tfs tf _ Htl Htf Hrl
                  ltac:(rewrite length_app, length_replicate; lia)) as Hs.
    destruct (tf_to_pos_quat tf) as [pos quat] eqn:Hpq.
    assert (Hev : forall o s', inverse_kinematics (sim w) pos quat th it sd = (o, s') ->
      match ik_event th it sd tf o with
      | EvIK p q th' it' sd' o =>
          (exists s, (inverse_kinematics s p q th' it' sd').1 = o) /\
          exists tf, tf ∈ tfs /\ tf_to_pos_quat tf = (p, q)
      | _ => False
      end).
    { intros o s' Ho. unfold ik_event. rewrite Hpq; simpl.
      split; [exists (sim w); by rewrite Ho|]. exists tf. done. }
    destruct (inverse_kinematics (sim w) pos quat th it sd) as [[sol|e] s'] eqn:Hik;
      rewrite Hs.
    + set (b := is_not_none sol).
      assert (Hins : <[k := b]> (pre ++ replicate (S m) false)
                     = (pre ++ [b]) ++ replicate m false).
      { rewrite <- Hk, <- (Nat.add_0_r (length pre)), insert_app_r.
        simpl. rewrite <- app_assoc. done. }
      rewrite Hins.
      set (w2 := mkWorld (<[rl := VBools ((pre ++ [b]) ++ replicate m false)]> (heap w))
                   s' (log w ++ [ik_event th it sd tf (IKReturn sol)])).
      specialize (IH (S k) (pre ++ [b]) w2 Hne).
      unfold w2 in IH; simpl in IH.
      rewrite lookup_insert_ne in IH by congruence.
      rewrite lookup_insert_eq in IH.
      specialize (IH Htl eq_refl ltac:(rewrite length_app; simpl; lia) ltac:(lia)).
      fold w2 in IH.
      destruct (for_ (seq (S k) m) (ik_step tl rl th it sd) w2) as [r w'].
      destruct IH as [new [Hlog Hall]].
      exists (ik_event th it sd tf (IKReturn sol) :: new). split.
      * rewrite Hlog. unfold w2; simpl. rewrite <- app_assoc. done.
      * constructor; [exact (Hev _ s' eq_refl)|done].
    + exists [ik_event th it sd tf (IKRaise e)]. split; [done|].
      constructor; [exact (Hev _ s' eq_refl)|constructor].
Qed.

Lemma evaluate_ik_from_solver tl th it sd tfs w :
  heap w !! tl = Some (VPoses tfs) ->
  let '(r, w') := evaluate_ik tl th it sd w in
  exists new, log w' = log w ++ new /\
    Forall (fun ev => match ev with
                      | EvIK p q th' it' sd' o =>
                          (exists s, (inverse_kinematics s p q th' it' sd').1 = o) /\
                          exists tf, tf ∈ tfs /\ tf_to_pos_quat tf = (p, q)
                      | _ => False
                      end) new.
Proof.
  intros Htl. rewrite (evaluate_ik_unfold tl th it sd tfs w Htl).
  set (rl := fresh (dom (heap w))).
  assert (Hne : tl <> rl).
  { intros ->. apply (is_fresh (dom (heap w))). fold rl.
    apply elem_of_dom. rewrite Htl. done. }
  set (w1 := set_heap (<[rl := VBools (replicate (length tfs) false)]> (heap w)) w).
  pose proof (ik_loop_from_solver tl rl th it sd tfs (length tfs) 0 [] w1 Hne) as Hl.
  unfold w1, set_heap in Hl; simpl in Hl.
  rewrite lookup_insert_ne in Hl by done. rewrite lookup_insert_eq in Hl.
  specialize (Hl Htl eq_refl eq_refl eq_refl).
  fold (set_heap (<[rl := VBools (replicate (length tfs) false)]> (heap w)) w) in Hl.
  fold w1 in Hl.
  destruct (for_ _ _ w1) as [[[]|e] w']; exact Hl.
Qed.

(** When no call on a pose of the array raises, whatever the simulator
    state, [evaluate_ik] returns normally. *)
Lemma evaluate_ik_no_hard_error tl th it sd tfs w :
  heap w !! tl = Some (VPoses tfs) ->
  (forall s tf, tf ∈ tfs ->
     returned (inverse_kinematics s (tf_to_pos_quat tf).1 (tf_to_pos_quat tf).2
                 th it sd).1 = true) ->
  let '(r, w') := evaluate_ik tl th it sd w in
  exists rl outs, r = Ok rl /\ length outs = length tfs /\
    log w' = log w ++ zip_with (fun tf o => ik_event th it sd tf (IKReturn o)) tfs outs /\
    heap w' !! rl = Some (VBools (is_not_none <$> outs)).
Proof.
  intros Htl Hret.
  pose proof (evaluate_ik_spec tl th it sd tfs w Htl) as Hs.
  pose proof (evaluate_ik_from_solver tl th it sd tfs w Htl) as Hf.
  destruct (evaluate_ik tl th it sd w) as [r w'].
  destruct Hs as [_ [outs [(rl & -> & Hlen & Hlog & Hh)|(e & tf & -> & Hlen & Htf & Hlog)]]].
  - exists rl, outs. done.
  - exfalso. destruct Hf as [new [Hlog' Hall]].
    rewrite Hlog in Hlog'.
    apply app_inv_head in Hlog'. subst new.
    apply Forall_app in Hall as [_ Hall]. apply Forall_cons in Hall as [Hev _].
    unfold ik_event in Hev. destruct Hev as [[s Hs] [tf' [Hin Hpq]]].
    specialize (Hret s tf' Hin). rewrite Hpq in Hret. simpl in Hret.
    rewrite Hs in Hret. discriminate.
Qed.


Lemma sampler_length max_radius max_z n seed ps :
  get_evaluation_poses max_radius max_z n seed = Some ps -> length ps = n.
Proof.
  intros Hp.
  by destruct (sampler_spec _ _ _ _ _ Hp) as (? & ? & ? & ? & ? & ? & ? & ? & _ & _ & _ & _ & Hl & _).
Qed.

Lemma count_true_le v : (count_true v <= length v)%nat.
Proof. induction v as [|[] v IH]; simpl; lia. Qed.

(** ** Lemmas on the output directory name *)

Lemma string_app_nil (b : string) : "" +:+ b = b.
Proof. reflexivity. Qed.

Lemma string_app_cons x (a b : string) : String x a +:+ b = String x (a +:+ b).
Proof. reflexivity. Qed.

Lemma string_app_assoc (a b c : string) : (a +:+ b) +:+ c = a +:+ (b +:+ c).
Proof.
  induction a as [|x a IH]; [done|]. rewrite !string_app_cons, IH. done.
Qed.

Lemma string_app_inv_l (s a b : string) : s +:+ a = s +:+ b -> a = b.
Proof.
  induction s as [|x s IH]; [done|]. rewrite !string_app_cons.
  intros H. injection H. auto.
Qed.

(** A word without ['_'] followed by ['_'] is read back uniquely. *)
Lemma split_at_underscore a b r r' :
  no_underscore a = true -> no_underscore b = true ->
  a +:+ String "_" r = b +:+ String "_" r' -> a = b /\ r = r'.
Proof.
  revert b; induction a as [|x a IH]; intros [|y b] Ha Hb H;
    rewrite ?string_app_nil, ?string_app_cons in H; simpl in Ha, Hb.
  - injection H. done.
  - injection H as <- _. destruct (Ascii.ascii_dec _ _); [discriminate|done].
  - injection H as -> _. destruct (Ascii.ascii_dec _ _); [discriminate|done].
  - injection H as <- H.
    destruct (Ascii.ascii_dec x "_"%char); [discriminate|].
    destruct (IH b Ha Hb H) as [-> ->]. done.
Qed.

Lemma no_underscore_pretty_N_go x s :
  no_underscore s = true -> no_underscore (pretty_N_go x s) = true.
Proof.
  revert s. induction (N.lt_wf_0 x) as [x _ IH]; intros s Hs.
  destruct (decide (x = 0)%N) as [->|Hx]; [by rewrite pretty_N_go_0|].
  rewrite pretty_N_go_step by lia. apply IH; [apply N.div_lt; lia|].
  simpl. rewrite Hs.
  unfold pretty_N_char. by repeat case_match.
Qed.

Lemma no_underscore_pretty_N (x : N) : no_underscore (pretty x) = true.
Proof.
  unfold pretty, pretty_N. case_decide; [done|].
  by apply no_underscore_pretty_N_go.
Qed.

Lemma no_underscore_pretty_nat (x : nat) : no_underscore (pretty x) = true.
Proof. apply no_underscore_pretty_N. Qed.

Lemma no_underscore_pretty_Z (x : Z) : no_underscore (pretty x) = true.
Proof.
  destruct x as [|p|p]; [done|apply no_underscore_pretty_N|].
  unfold pretty, pretty_Z. rewrite string_app_cons, string_app_nil.
  apply no_underscore_pretty_N.
Qed.

Lemma reported_percentages_range n v : length v = n ->
  match reported_percentages n v with
  | (Some p, Some q) => 0 <= p <= 100 /\ 0 <= q <= 100 /\ p + q = 100
  | (None, None) => n = 0%nat
  | _ => False
  end.
Proof.
  intros Hl. unfold reported_percentages, true_divide.
  destruct (decide (n = 0%nat)) as [->|Hn]; [done|].
  pose proof (count_true_le v) as Hc. rewrite Hl in Hc.
  apply le_INR in Hc. assert (Hpos : 0 < INR n) by (apply lt_0_INR; lia).
  pose proof (pos_INR (count_true v)) as H0.
  set (s := INR (count_true v)) in *. set (m := INR n) in *.
  assert (Hi : 0 < / m) by (apply Rinv_0_lt_compat; lra).
  assert (Hmi : m * / m = 1) by (apply Rinv_r; lra).
  unfold Rdiv. split; [split; nra|]. split; [split; nra|]. nra.
Qed.

(** ** Further properties of the evaluator *)

(** X1: on an empty pose array [evaluate_ik] makes no solver call: it
    returns a new empty boolean array, and the simulator state and the log
    are unchanged. *)
Theorem evaluate_ik_empty tl th it sd w :
  heap w !! tl = Some (VPoses []) ->
  evaluate_ik tl th it sd w =
  (Ok (fresh (dom (heap w))),
   mkWorld (<[fresh (dom (heap w)) := VBools []]> (heap w)) (sim w) (log w)).
Proof. intros Htl. rewrite (evaluate_ik_unfold tl th it sd [] w Htl). reflexivity. Qed.

(** X2: [evaluate_ik] writes only into the verdict array it allocates:
    every array that existed before the call keeps its contents, whether
    the call returns or raises, and the array it returns is a new object,
    aliasing none of them. *)
Theorem evaluate_ik_frame tl th it sd tfs w :
  heap w !! tl = Some (VPoses tfs) ->
  let '(r, w') := evaluate_ik tl th it sd w in
  (forall l, l ∈ dom (heap w) -> heap w' !! l = heap w !! l) /\
  (forall rl, r = Ok rl -> rl ∉ dom (heap w)).
Proof.
  intros Htl. rewrite (evaluate_ik_unfold tl th it sd tfs w Htl).
  set (rl := fresh (dom (heap w))).
  assert (Hfresh : rl ∉ dom (heap w)) by apply is_fresh.
  assert (Hne : tl <> rl).
  { intros ->. apply Hfresh, elem_of_dom. rewrite Htl. done. }
  set (w1 := set_heap (<[rl := VBools (replicate (length tfs) false)]> (heap w)) w).
  pose proof (ik_loop_spec tl rl th it sd tfs (length tfs) 0 [] w1 Hne) as Hl.
  unfold w1, set_heap in Hl; simpl in Hl.
  rewrite lookup_insert_ne in Hl by done. rewrite lookup_insert_eq in Hl.
  specialize (Hl Htl eq_refl eq_refl eq_refl).
  fold (set_heap (<[rl := VBools (replicate (length tfs) false)]> (heap w)) w) in Hl.
  fold w1 in Hl.
  destruct (for_ _ _ w1) as [r w'].
  destruct Hl as [Hfr _].
  assert (Hframe : forall l, l ∈ dom (heap w) -> heap w' !! l = heap w !! l).
  { intros l Hl. assert (l <> rl) by (intros ->; contradiction).
    rewrite Hfr by done. unfold w1, set_heap; simpl.
    by rewrite lookup_insert_ne by congruence. }
  destruct r as [[]|e]; (split; [done|]); intros rl' H;
    [injection H as <-; done|discriminate].
Qed.

(** X3: if the solver never raises on the poses of the array, whatever
    the simulator state, [evaluate_ik] returns normally after exactly one
    call per pose, with a verdict array of one entry per pose. *)
Theorem evaluate_ik_returns_if_solver_never_raises tl th it sd tfs w :
  heap w !! tl = Some (VPoses tfs) ->
  (forall s tf, tf ∈ tfs ->
     returned (inverse_kinematics s (tf_to_pos_quat tf).1 (tf_to_pos_quat tf).2
                 th it sd).1 = true) ->
  exists rl w' outs, evaluate_ik tl th it sd w = (Ok rl, w') /\
    length outs = length tfs /\
    log w' = log w ++ zip_with (fun tf o => ik_event th it sd tf (IKReturn o)) tfs outs /\
    heap w' !! rl = Some (VBools (is_not_none <$> outs)).
Proof.
  intros Htl Hret.
  pose proof (evaluate_ik_no_hard_error tl th it sd tfs w Htl Hret) as Hs.
  destruct (evaluate_ik tl th it sd w) as [r w'].
  destruct Hs as (rl & outs & -> & Hlen & Hlog & Hh).
  exists rl, w', outs. done.
Qed.

(** X4: if the solver's outcome on a pose does not depend on the simulator
    state (it returns [f pos quat]), the verdicts are those of [f] on each
    pose, whatever the order of the calls: [reachable_by_ik[i]] is
    [f(tf_to_pos_quat(tfs_ee[i])) is not None]. *)
Theorem evaluate_ik_stateless_solver tl th it sd tfs w (f : Pos -> Quatn -> option Sol) :
  heap w !! tl = Some (VPoses tfs) ->
  (forall s tf, tf ∈ tfs ->
     (inverse_kinematics s (tf_to_pos_quat tf).1 (tf_to_pos_quat tf).2 th it sd).1
     = IKReturn (f (tf_to_pos_quat tf).1 (tf_to_pos_quat tf).2)) ->
  exists rl w', evaluate_ik tl th it sd w = (Ok rl, w') /\
    heap w' !! rl = Some (VBools ((fun tf => is_not_none
                     (f (tf_to_pos_quat tf).1 (tf_to_pos_quat tf).2)) <$> tfs)).
Proof.
  intros Htl Hf.
  assert (Hret : forall s tf, tf ∈ tfs ->
     returned (inverse_kinematics s (tf_to_pos_quat tf).1 (tf_to_pos_quat tf).2
                 th it sd).1 = true).
  { intros s tf Hin. rewrite (Hf s tf Hin). done. }
  pose proof (evaluate_ik_no_hard_error tl th it sd tfs w Htl Hret) as Hs.
  pose proof (evaluate_ik_from_solver tl th it sd tfs w Htl) as Hsol.
  destruct (evaluate_ik tl th it sd w) as [r w'].
  destruct Hs as (rl & outs & -> & Hlen & Hlog & Hh).
  destruct Hsol as [new [Hlog' Hall]].
  rewrite Hlog in Hlog'. apply app_inv_head in Hlog'. subst new.
  exists rl, w'. split; [done|]. rewrite Hh.
  assert (Houts : outs = (fun tf => f (tf_to_pos_quat tf).1 (tf_to_pos_quat tf).2) <$> tfs).
  { apply list_eq. intros i. rewrite list_lookup_fmap.
    destruct (tfs !! i) as [tf|] eqn:Htf.
    - destruct (lookup_lt_is_Some_2 outs i) as [o Ho].
      { rewrite Hlen. eapply lookup_lt_Some; eauto. }
      rewrite Ho. simpl.
      assert (Hz : zip_with (fun tf o => ik_event th it sd tf (IKReturn o)) tfs outs !! i
                   = Some (ik_event th it sd tf (IKReturn o)))
        by (rewrite lookup_zip_with, Htf, Ho; reflexivity).
      pose proof (proj1 (Forall_lookup _ _) Hall i _ Hz) as Hev.
      unfold ik_event in Hev. hnf in Hev. destruct Hev as [[s Hs] _].
      rewrite (Hf s tf) in Hs by (eapply list_elem_of_lookup_2; eauto).
      injection Hs as ->. done.
    - apply lookup_ge_None_1 in Htf. apply lookup_ge_None_2. lia. }
  rewrite Houts, <- list_fmap_compose. done.
Qed.

(** ** Further properties of the sampler *)


(** X6: the orientations are drawn before any position: for [m <= n], when
    the sampler succeeds with [n] samples it also succeeds with [m] samples
    and the same seed, and the first [m] poses of both runs have the same
    rotation block. *)
Theorem sampler_rotation_prefix max_radius max_z m n seed :
  (m <= n)%nat ->
  match get_evaluation_poses max_radius max_z n seed with
  | None => True
  | Some ps' =>
      exists ps, get_evaluation_poses max_radius max_z m seed = Some ps /\
      forall i, (i < m)%nat -> exists tf tf', ps !! i = Some tf /\ ps' !! i = Some tf' /\
        forall r c, (r < 3)%nat -> (c < 3)%nat -> entry tf r c = entry tf' r c
  end.
Proof.
  intros Hmn.
  destruct (get_evaluation_poses max_radius max_z n seed) as [ps'|] eqn:Hp'; [|done].
  destruct (sampler_spec _ _ _ _ _ Hp')
    as (qs' & g1' & us' & g2' & vs' & g3' & zs' & g4' & Hr' & _ & _ & _ & Hl' & Hi').
  pose proof (rotation_random_prefix m n (default_rng seed) Hmn) as Hpre.
  rewrite Hr' in Hpre. destruct Hpre as (qs & g1 & Hr & ->).
  destruct (get_evaluation_poses max_radius max_z m seed) as [ps|] eqn:Hp.
  2:{ exfalso. apply get_evaluation_poses_None in Hp as [Hp|Hz]; [congruence|].
      assert (Hn : get_evaluation_poses max_radius max_z n seed = None)
        by (apply get_evaluation_poses_None; by right).
      congruence. }
  destruct (sampler_spec _ _ _ _ _ Hp)
    as (qs2 & g1b & us & g2 & vs & g3 & zs & g4 & Hr2 & _ & _ & _ & Hl & Hi).
  rewrite Hr in Hr2. injection Hr2 as <- <-.
  exists ps. split; [done|]. intros i Him.
  destruct (Hi i Him) as (q & u & v & z & Hq & _ & _ & _ & Hps).
  destruct (Hi' i ltac:(lia)) as (q' & u' & v' & z' & Hq' & _ & _ & _ & Hps').
  rewrite lookup_take_lt in Hq by done.
  rewrite Hq in Hq'. injection Hq' as <-.
  exists (pose_of max_radius q u v z), (pose_of max_radius q u' v' z').
  split; [done|]. split; [done|]. intros r c Hr3 Hc3.
  rewrite !pose_of_eq.
  destruct r as [|[|[|r]]]; try lia; destruct c as [|[|[|c]]]; try lia; reflexivity.
Qed.

(** ** Further properties of the run *)

(** X7: a run of [main] that completes has created the output directory,
    saved the [num_samples] sampled poses, made one solver call per pose in
    order, torn the simulator down, and saved a verdict array of
    [num_samples] entries whose i-th entry is whether call i returned a
    solution; nothing else. *)
Theorem main_success_log args rr rz w :
  let d := eval_data_dir args in
  match main args rr rz w with
  | (Ok _, w') =>
      exists ps outs,
        get_evaluation_poses rr rz (num_samples args) (seed args) = Some ps /\
        length ps = num_samples args /\ length outs = num_samples args /\
        log w' = log w ++ EvMkdir d :: EvSave (d +:+ "/poses.npy") (VPoses ps)
          :: zip_with (fun tf o => ik_event (threshold args) (iterations args)
                                      (seed args) tf (IKReturn o)) ps outs
          ++ [EvDisconnect;
              EvSave (d +:+ "/reachable_by_ik.npy") (VBools (is_not_none <$> outs))]
  | (Raise _, _) => True
  end.
Proof.
  pose proof (main_run_spec args rr rz w) as Hm. cbv beta zeta in Hm |- *.
  destruct (main args rr rz w) as [r w'].
  destruct Hm as (new & Hlog & Hcase).
  destruct Hcase as [(? & -> & _)|[(-> & _)|[(-> & _)|(ps & Hp & Hcase)]]];
    try exact I.
  destruct Hcase as [(? & -> & _)|(outs & [(e & tf & -> & _)|(Hlen & -> & Hr)])];
    try exact I.
  destruct Hr as [->|(? & ->)]; [|exact I].
  pose proof (sampler_length _ _ _ _ _ Hp) as Hl.
  exists ps, outs. split; [done|]. split; [done|]. split; [lia|]. done.
Qed.


(** X9: the percentages [main] prints after a completed run are computed
    from the saved verdict array of [num_samples] entries: for
    [num_samples > 0] both lie in [0, 100] and add up to 100; for
    [num_samples = 0] both divisions are by zero (numpy prints [nan]). *)
Theorem main_reported_percentages args rr rz w :
  match main args rr rz w with
  | (Ok _, w') =>
      exists v new,
        log w' = log w ++ new
                 ++ [EvSave (eval_data_dir args +:+ "/reachable_by_ik.npy") (VBools v)] /\
        length v = num_samples args /\
        match reported_percentages (num_samples args) v with
        | (Some p, Some q) => 0 <= p <= 100 /\ 0 <= q <= 100 /\ p + q = 100
        | (None, None) => num_samples args = 0%nat
        | _ => False
        end
  | (Raise _, _) => True
  end.
Proof.
  pose proof (main_run_spec args rr rz w) as Hm. cbv beta zeta in Hm.
  destruct (main args rr rz w) as [r w'].
  destruct Hm as (new & Hlog & Hcase).
  destruct Hcase as [(? & -> & _)|[(-> & _)|[(-> & _)|(ps & Hp & Hcase)]]];
    try exact I.
  destruct Hcase as [(? & -> & _)|(outs & [(e & tf & -> & _)|(Hlen & -> & Hr)])];
    try exact I.
  destruct Hr as [->|(? & ->)]; [|exact I].
  - pose proof (sampler_length _ _ _ _ _ Hp) as Hl.
    assert (Hv : length (is_not_none <$> outs) = num_samples args)
      by (rewrite length_fmap; lia).
    exists (is_not_none <$> outs),
      (EvMkdir (eval_data_dir args)
       :: EvSave (eval_data_dir args +:+ "/poses.npy") (VPoses ps)
       :: zip_with (fun tf o => ik_event (threshold args) (iterations args)
                                   (seed args) tf (IKReturn o)) ps outs
       ++ [EvDisconnect]).
    split; [|split; [done|by apply reported_percentages_range]].
    rewrite Hlog. f_equal. simpl. rewrite <- app_assoc. done.
Qed.

(** X10: the output directory name identifies the run's configuration:
    for one robot type, two runs writing into the same directory have the
    same sample count, IK threshold and trial budget, and, for the franka,
    the same joint range. *)
Theorem eval_data_dir_inj args1 args2 :
  robot_type args1 = robot_type args2 ->
  eval_data_dir args1 = eval_data_dir args2 ->
  num_samples args1 = num_samples args2 /\ threshold args1 = threshold args2 /\
  iterations args1 = iterations args2 /\
  (robot_type args1 = "franka" -> degrees args1 = degrees args2).
Proof.
  intros Hrt H. unfold eval_data_dir in H. rewrite Hrt in H |- *.
  apply string_app_inv_l in H.
  assert (Htail : forall (n1 n2 : nat) (t1 t2 i1 i2 : Z),
    pretty n1 +:+ String "_" (String "t"
      (pretty t1 +:+ String "_" (String "i" (pretty i1)))) =
    pretty n2 +:+ String "_" (String "t"
      (pretty t2 +:+ String "_" (String "i" (pretty i2)))) ->
    n1 = n2 /\ t1 = t2 /\ i1 = i2).
  { intros n1 n2 t1 t2 i1 i2 Ht.
    apply split_at_underscore in Ht as [Hn Ht];
      [|apply no_underscore_pretty_nat..].
    injection Ht as Ht.
    apply split_at_underscore in Ht as [Ht Hi];
      [|apply no_underscore_pretty_Z..].
    injection Hi as Hi.
    split; [exact (pretty_nat_inj _ _ Hn)|].
    split; [exact (pretty_Z_inj _ _ Ht)|exact (pretty_Z_inj _ _ Hi)]. }
  destruct (bool_decide (robot_type args2 = "franka")) eqn:Hb.
  - rewrite !string_app_assoc in H. apply string_app_inv_l in H.
    rewrite !string_app_cons, !string_app_nil in H.
    apply split_at_underscore in H as [Hd H];
      [|apply no_underscore_pretty_Z..].
    injection H as H. apply Htail in H as (? & ? & ?).
    split; [done|]. split; [done|]. split; [done|].
    intros _. exact (pretty_Z_inj _ _ Hd).
  - apply string_app_inv_l in H.
    rewrite !string_app_cons, !string_app_nil in H.
    injection H as H. apply Htail in H as (? & ? & ?).
    split; [done|]. split; [done|]. split; [done|].
    intros Hf. apply bool_decide_eq_false in Hb. contradiction.
Qed.

End Pipeline.

(** ** The statements at concrete inputs

    A toy bit generator (a counter fed through a linear congruential step,
    normals read off the counter), a solver that alternates solutions and
    [None] or raises from a given call on, and the end-to-end parameters of
    the spec (radius 0.8, height 1.2, 10 samples, seed 27, threshold 25,
    100 trials). *)


Lemma sampler_in_cylinder_witness :
  let rng := fun s : Z => s in
  let next := fun g : Z => (g * 6364136223846793005 + 1442695040888963407, g + 1)%Z in
  let normal := fun g : Z => (IZR g, (g + 1)%Z) in
  0 <= 8 / 10 /\ 0 <= 12 / 10 /\
  match get_evaluation_poses Z rng next normal (8 / 10) (12 / 10) 10 27 with
  | None => True
  | Some ps =>
      Forall (fun tf =>
        sqrt (entry tf 0 3 * entry tf 0 3 + entry tf 1 3 * entry tf 1 3)
          <= 8 / 10 /\
        0 <= entry tf 2 3 <= 12 / 10 /\
        (8 / 10 = 0 -> entry tf 0 3 = 0 /\ entry tf 1 3 = 0) /\
        (12 / 10 = 0 -> entry tf 2 3 = 0)) ps
  end.
Proof.
  intros rng next normal.
  assert (H1 : 0 <= 8 / 10) by lra. assert (H2 : 0 <= 12 / 10) by lra.
  split; [exact H1|]. split; [exact H2|].
  exact (sampler_in_cylinder Z rng next normal (8 / 10) (12 / 10) 10 27 H1 H2).
Defined.

Lemma sampler_deterministic_witness :
  let rng := fun s : Z => s in
  let next := fun g : Z => (g * 6364136223846793005 + 1442695040888963407, g + 1)%Z in
  let normal := fun g : Z => (IZR g, (g + 1)%Z) in
  gen_bisim Z next normal (rng 27%Z) (rng 27%Z) /\
  get_evaluation_poses Z rng next normal (8 / 10) (12 / 10) 10 27 =
  get_evaluation_poses Z rng next normal (8 / 10) (12 / 10) 10 27.
Proof.
  intros rng next normal.
  pose proof (gen_bisim_refl Z next normal (rng 27%Z)) as Hb.
  split; [exact Hb|].
  exact (sampler_deterministic Z rng next normal 27 27 (8 / 10) (12 / 10) 10 Hb).
Defined.

Lemma evaluate_ik_verdicts_witness :
  let conv := fun _ : Mat4 => (tt, tt) in
  let ik := fun (s : nat) (_ _ : unit) (_ _ _ : Z) =>
    (IKReturn unit unit (if Nat.even s then Some tt else None), S s) in
  let w := mkWorld unit unit unit unit nat {[1%positive := VPoses [eye4; eye4]]} 0%nat [] in
  heap _ _ _ _ _ w !! 1%positive = Some (VPoses [eye4; eye4]) /\
  match evaluate_ik unit unit unit unit nat conv ik 1 25 100 27 w with
  | (Ok _ _ rl, w') =>
      exists v outs,
        heap _ _ _ _ _ w' !! rl = Some (VBools v) /\ length v = length [eye4; eye4] /\
        log _ _ _ _ _ w' = log _ _ _ _ _ w ++
          zip_with (fun tf o => ik_event unit unit unit unit conv 25 100 27 tf
                                  (IKReturn unit unit o)) [eye4; eye4] outs /\
        forall i, (i < length [eye4; eye4])%nat ->
          exists tf o, [eye4; eye4] !! i = Some tf /\ outs !! i = Some o /\
            (v !! i = Some true <-> o <> None) /\
            (v !! i = Some false <-> o = None)
  | (Raise _ _ _, _) => True
  end.
Proof.
  intros conv ik w.
  assert (H : heap _ _ _ _ _ w !! 1%positive = Some (VPoses [eye4; eye4]))
    by reflexivity.
  split; [exact H|].
  exact (evaluate_ik_verdicts unit unit unit unit nat conv ik 1 25 100 27
           [eye4; eye4] w H).
Defined.

Lemma evaluate_ik_one_call_per_pose_witness :
  let conv := fun _ : Mat4 => (tt, tt) in
  let ik := fun (s : nat) (_ _ : unit) (_ _ _ : Z) =>
    (if Nat.ltb s 1 then IKReturn unit unit (Some tt) else IKRaise unit unit tt, S s) in
  let w := mkWorld unit unit unit unit nat {[1%positive := VPoses [eye4; eye4]]} 0%nat [] in
  heap _ _ _ _ _ w !! 1%positive = Some (VPoses [eye4; eye4]) /\
  let '(r, w') := evaluate_ik unit unit unit unit nat conv ik 1 25 100 27 w in
  exists outs,
    log _ _ _ _ _ w' = log _ _ _ _ _ w ++
      zip_with (ik_event unit unit unit unit conv 25 100 27) [eye4; eye4] outs /\
    ((exists rl, r = Ok _ _ rl) /\ length outs = length [eye4; eye4] /\
     Forall (fun o => returned unit unit o = true) outs
     \/
     exists pre e, outs = pre ++ [IKRaise unit unit e] /\
       r = Raise _ _ (ExcSolver unit e) /\
       (length pre < length [eye4; eye4])%nat /\
       Forall (fun o => returned unit unit o = true) pre).
Proof.
  intros conv ik w.
  assert (H : heap _ _ _ _ _ w !! 1%positive = Some (VPoses [eye4; eye4]))
    by reflexivity.
  split; [exact H|].
  exact (evaluate_ik_one_call_per_pose unit unit unit unit nat conv ik 1 25 100 27
           [eye4; eye4] w H).
Defined.

Lemma evaluate_ik_hard_error_propagates_witness :
  let conv := fun _ : Mat4 => (tt, tt) in
  let ik := fun (s : nat) (_ _ : unit) (_ _ _ : Z) =>
    (if Nat.ltb s 1 then IKReturn unit unit (Some tt) else IKRaise unit unit tt, S s) in
  let w := mkWorld unit unit unit unit nat {[1%positive := VPoses [eye4; eye4]]} 0%nat [] in
  heap _ _ _ _ _ w !! 1%positive = Some (VPoses [eye4; eye4]) /\
  let '(r, w') := evaluate_ik unit unit unit unit nat conv ik 1 25 100 27 w in
  forall new, log _ _ _ _ _ w' = log _ _ _ _ _ w ++ new ->
  forall j pos quat th' it' sd' e,
    new !! j = Some (EvIK unit unit unit unit pos quat th' it' sd' (IKRaise unit unit e)) ->
    r = Raise _ _ (ExcSolver unit e) /\ length new = S j /\
    exists tf, [eye4; eye4] !! j = Some tf /\ conv tf = (pos, quat).
Proof.
  intros conv ik w.
  assert (H : heap _ _ _ _ _ w !! 1%positive = Some (VPoses [eye4; eye4]))
    by reflexivity.
  split; [exact H|].
  exact (evaluate_ik_hard_error_propagates unit unit unit unit nat conv ik 1 25 100 27
           [eye4; eye4] w H).
Defined.

(** C7 fails as stated: with two poses and a solver that raises on its
    first call, the solver is invoked once, not twice. *)
Lemma evaluate_ik_hard_error_stops_calls :
  let conv := fun _ : Mat4 => (tt, tt) in
  let ik := fun (s : nat) (_ _ : unit) (_ _ _ : Z) =>
    (IKRaise unit unit tt, S s) in
  let w := mkWorld unit unit unit unit nat {[1%positive := VPoses [eye4; eye4]]} 0%nat [] in
  length (filter (fun ev => is_ik_event unit unit unit unit ev = true)
            (log _ _ _ _ _ (evaluate_ik unit unit unit unit nat conv ik 1 25 100 27 w).2))
  = 1%nat /\
  length (filter (fun ev => is_ik_event unit unit unit unit ev = true)
            (log _ _ _ _ _ (evaluate_ik unit unit unit unit nat conv ik 1 25 100 27 w).2))
  <> length [eye4; eye4].
Proof. vm_compute. split; [reflexivity | discriminate]. Qed.

Lemma evaluate_ik_empty_witness :
  let conv := fun _ : Mat4 => (tt, tt) in
  let ik := fun (s : nat) (_ _ : unit) (_ _ _ : Z) =>
    (IKReturn unit unit (Some tt), S s) in
  let w := mkWorld unit unit unit unit nat {[1%positive := VPoses []]} 0%nat [] in
  heap _ _ _ _ _ w !! 1%positive = Some (VPoses []) /\
  evaluate_ik unit unit unit unit nat conv ik 1 25 100 27 w =
  (Ok _ _ (fresh (dom (heap _ _ _ _ _ w))),
   mkWorld unit unit unit unit nat
     (<[fresh (dom (heap _ _ _ _ _ w)) := VBools []]> (heap _ _ _ _ _ w))
     (sim _ _ _ _ _ w) (log _ _ _ _ _ w)).
Proof.
  intros conv ik w.
  assert (H : heap _ _ _ _ _ w !! 1%positive = Some (VPoses [])) by reflexivity.
  split; [exact H|].
  exact (evaluate_ik_empty unit unit unit unit nat conv ik 1 25 100 27 w H).
Defined.

Lemma evaluate_ik_frame_witness :
  let conv := fun _ : Mat4 => (tt, tt) in
  let ik := fun (s : nat) (_ _ : unit) (_ _ _ : Z) =>
    (if Nat.ltb s 1 then IKReturn unit unit (Some tt) else IKRaise unit unit tt, S s) in
  let w := mkWorld unit unit unit unit nat
             {[1%positive := VPoses [eye4; eye4]; 2%positive := VBools [true]]} 0%nat [] in
  heap _ _ _ _ _ w !! 1%positive = Some (VPoses [eye4; eye4]) /\
  let '(r, w') := evaluate_ik unit unit unit unit nat conv ik 1 25 100 27 w in
  (forall l, l ∈ dom (heap _ _ _ _ _ w) ->
     heap _ _ _ _ _ w' !! l = heap _ _ _ _ _ w !! l) /\
  (forall rl, r = Ok _ _ rl -> rl ∉ dom (heap _ _ _ _ _ w)).
Proof.
  intros conv ik w.
  assert (H : heap _ _ _ _ _ w !! 1%positive = Some (VPoses [eye4; eye4]))
    by reflexivity.
  split; [exact H|].
  exact (evaluate_ik_frame unit unit unit unit nat conv ik 1 25 100 27
           [eye4; eye4] w H).
Defined.

Lemma evaluate_ik_returns_if_solver_never_raises_witness :
  let conv := fun _ : Mat4 => (tt, tt) in
  let ik := fun (s : nat) (_ _ : unit) (_ _ _ : Z) =>
    (IKReturn unit unit (if Nat.even s then Some tt else None), S s) in
  let w := mkWorld unit unit unit unit nat {[1%positive := VPoses [eye4; eye4]]} 0%nat [] in
  heap _ _ _ _ _ w !! 1%positive = Some (VPoses [eye4; eye4]) /\
  (forall s tf, tf ∈ [eye4; eye4] ->
     returned unit unit (ik s (conv tf).1 (conv tf).2 25%Z 100%Z 27%Z).1 = true) /\
  exists rl w' outs,
    evaluate_ik unit unit unit unit nat conv ik 1 25 100 27 w = (Ok _ _ rl, w') /\
    length outs = length [eye4; eye4] /\
    log _ _ _ _ _ w' = log _ _ _ _ _ w ++
      zip_with (fun tf o => ik_event unit unit unit unit conv 25 100 27 tf
                              (IKReturn unit unit o)) [eye4; eye4] outs /\
    heap _ _ _ _ _ w' !! rl = Some (VBools (is_not_none unit <$> outs)).
Proof.
  intros conv ik w.
  assert (H : heap _ _ _ _ _ w !! 1%positive = Some (VPoses [eye4; eye4]))
    by reflexivity.
  assert (Hr : forall s tf, tf ∈ [eye4; eye4] ->
     returned unit unit (ik s (conv tf).1 (conv tf).2 25%Z 100%Z 27%Z).1 = true)
    by (intros s tf _; reflexivity).
  split; [exact H|]. split; [exact Hr|].
  exact (evaluate_ik_returns_if_solver_never_raises unit unit unit unit nat conv ik
           1 25 100 27 [eye4; eye4] w H Hr).
Defined.

Lemma evaluate_ik_stateless_solver_witness :
  let conv := fun _ : Mat4 => (tt, tt) in
  let f := fun (_ _ : unit) => Some tt in
  let ik := fun (s : nat) (p q : unit) (_ _ _ : Z) =>
    (IKReturn unit unit (f p q), S s) in
  let w := mkWorld unit unit unit unit nat {[1%positive := VPoses [eye4; eye4]]} 0%nat [] in
  heap _ _ _ _ _ w !! 1%positive = Some (VPoses [eye4; eye4]) /\
  (forall s tf, tf ∈ [eye4; eye4] ->
     (ik s (conv tf).1 (conv tf).2 25%Z 100%Z 27%Z).1
     = IKReturn unit unit (f (conv tf).1 (conv tf).2)) /\
  exists rl w',
    evaluate_ik unit unit unit unit nat conv ik 1 25 100 27 w = (Ok _ _ rl, w') /\
    heap _ _ _ _ _ w' !! rl =
      Some (VBools ((fun tf => is_not_none unit (f (conv tf).1 (conv tf).2))
                      <$> [eye4; eye4])).
Proof.
  intros conv f ik w.
  assert (H : heap _ _ _ _ _ w !! 1%positive = Some (VPoses [eye4; eye4]))
    by reflexivity.
  assert (Hf : forall s tf, tf ∈ [eye4; eye4] ->
     (ik s (conv tf).1 (conv tf).2 25%Z 100%Z 27%Z).1
     = IKReturn unit unit (f (conv tf).1 (conv tf).2))
    by (intros s tf _; reflexivity).
  split; [exact H|]. split; [exact Hf|].
  exact (evaluate_ik_stateless_solver unit unit unit unit nat conv ik
           1 25 100 27 [eye4; eye4] w f H Hf).
Defined.

Lemma sampler_rotation_prefix_witness :
  let rng := fun s : Z => s in
  let next := fun g : Z => (g * 6364136223846793005 + 1442695040888963407, g + 1)%Z in
  let normal := fun g : Z => (IZR g, (g + 1)%Z) in
  (1 <= 2)%nat /\
  match get_evaluation_poses Z rng next normal (8 / 10) (12 / 10) 2 27 with
  | None => True
  | Some ps' =>
      exists ps, get_evaluation_poses Z rng next normal (8 / 10) (12 / 10) 1 27 = Some ps /\
      forall i, (i < 1)%nat -> exists tf tf', ps !! i = Some tf /\ ps' !! i = Some tf' /\
        forall r c, (r < 3)%nat -> (c < 3)%nat -> entry tf r c = entry tf' r c
  end.
Proof.
  intros rng next normal.
  assert (H : (1 <= 2)%nat) by lia.
  split; [exact H|].
  exact (sampler_rotation_prefix Z rng next normal (8 / 10) (12 / 10) 1 2 27 H).
Defined.

Lemma eval_data_dir_inj_witness :
  let a := mkArgs "franka" 166 10 25 100 27 in
  robot_type a = robot_type a /\ eval_data_dir a = eval_data_dir a /\
  (num_samples a = num_samples a /\ threshold a = threshold a /\
   iterations a = iterations a /\ (robot_type a = "franka" -> degrees a = degrees a)).
Proof.
  intros a.
  assert (H1 : robot_type a = robot_type a) by reflexivity.
  assert (H2 : eval_data_dir a = eval_data_dir a) by reflexivity.
  split; [exact H1|]. split; [exact H2|].
  exact (eval_data_dir_inj a a H1 H2).
Defined.
